(** * GraphQL to EdgeQL translation: a shallow embedding of
      [edgedb/lang/graphql/translator.py]

    The development follows the Python module top to bottom: the module-level
    tables, the GraphQL input tree ([gqlast]), the EdgeQL output tree
    ([qlast]), the schema the translator consults, and then the methods of
    [GraphQLTranslator] as computations in a state-and-exception monad over
    the two instance fields [_fragments] and [_vars]. *)

From Stdlib Require Import ZArith String Ascii List Bool Lia.
From stdpp Require Import base option list gmap strings sorting.

#[local] Set Warnings "-register-all".

Local Open Scope Z_scope.
Local Open Scope string_scope.
Local Open Scope list_scope.
Local Open Scope stdpp_scope.

(** ** Python values *)

(** The values the translator inspects with [type], [isinstance] and [is]:
    variable bindings handed in by the caller and the payloads of scalar
    literals.  A float is carried as its IEEE-754 binary64 bit pattern; the
    translator only ever looks at its type. *)
Inductive pyval :=
| PyNone
| PyBool (b : bool)
| PyInt (n : Z)
| PyFloat (bits : Z)
| PyStr (s : string)
| PyList (items : list pyval)
| PyObject (cls : string).

(** [type(val)] *)
Inductive pytype :=
| NoneType | bool_t | int_t | float_t | str_t | list_t | object_t (cls : string).

Definition type_of (v : pyval) : pytype :=
  match v with
  | PyNone => NoneType
  | PyBool _ => bool_t
  | PyInt _ => int_t
  | PyFloat _ => float_t
  | PyStr _ => str_t
  | PyList _ => list_t
  | PyObject c => object_t c
  end.

(** ** [edgedb.lang.schema.types] *)

Module s_types.

(** Modelled from the spec: the schema implementation types named by the
    module-level tables ([s_types.string.Str], [s_types.int.Int],
    [s_types.numeric.Float], [s_types.numeric.Decimal],
    [s_types.boolean.Bool], [s_types.uuid.UUID]); their class declarations
    are not part of the translator module.  Any other implementation type a
    schema may hand back is [Other]. *)
Inductive t :=
| Str | UUID | Int | Float | Decimal | Bool | Other (name : string).

Definition eqb (a b : t) : bool :=
  match a, b with
  | Str, Str | UUID, UUID | Int, Int | Float, Float
  | Decimal, Decimal | Bool, Bool => true
  | Other x, Other y => String.eqb x y
  | _, _ => false
  end.

(** Modelled from the spec: [issubclass(base_t, classes)] on implementation
    types.  The six classes are unrelated to one another, so a class is a
    subclass of a tuple of them exactly when it is one of its members. *)
Definition issubclass (base_t : t) (classes : list t) : bool :=
  existsb (eqb base_t) classes.

End s_types.

(** ** Module-level tables *)

Inductive operator := EQ | NE | IN | NOT_IN | AND | UNION.

Definition GQL_OPS_MAP (suffix : string) : option operator :=
  if String.eqb suffix "__eq" then Some EQ
  else if String.eqb suffix "__ne" then Some NE
  else if String.eqb suffix "__in" then Some IN
  else if String.eqb suffix "__ni" then Some NOT_IN
  else None.

Definition PY_COERCION_MAP (ty : pytype) : option (list s_types.t) :=
  match ty with
  | str_t => Some [s_types.Str; s_types.UUID]
  | int_t => Some [s_types.Int; s_types.Float; s_types.Decimal; s_types.UUID]
  | float_t => Some [s_types.Float; s_types.Decimal]
  | bool_t => Some [s_types.Bool]
  | _ => None
  end.

Definition GQL_TYPE_NAMES_MAP (name : string) : option s_types.t :=
  if String.eqb name "String" then Some s_types.Str
  else if String.eqb name "Int" then Some s_types.Int
  else if String.eqb name "Float" then Some s_types.Float
  else if String.eqb name "Boolean" then Some s_types.Bool
  else if String.eqb name "ID" then Some s_types.UUID
  else None.

(** ** The GraphQL tree ([gqlast]) *)

Inductive literal :=
| Var (value : string)       (* gqlast.Variable *)
| ListLiteral (value : list literal)
| ObjectLiteral (value : list (string * literal))
| ScalarLiteral (value : pyval).

(** What the attribute [.value] of a literal node holds: a Python value for a
    scalar literal and for a variable (its name), child nodes otherwise. *)
Inductive attr_value :=
| AVal (v : pyval)
| ANodes (nodes : list literal)
| AFields (fields : list (string * literal)).

Definition literal_value (l : literal) : attr_value :=
  match l with
  | Var name => AVal (PyStr name)
  | ListLiteral nodes => ANodes nodes
  | ObjectLiteral fields => AFields fields
  | ScalarLiteral v => AVal v
  end.

(** Modelled from the spec: [literal.topython()], the decoded default of a
    variable declaration; the method lives in [gqlast], outside the
    translator module.  A scalar literal decodes to its payload and a list
    literal to the list of its decoded elements. *)
Fixpoint topython (l : literal) : pyval :=
  match l with
  | Var name => PyStr name
  | ListLiteral nodes => PyList (List.map topython nodes)
  | ObjectLiteral _ => PyObject "dict"
  | ScalarLiteral v => v
  end.

Record argument := Argument { arg_name : string; arg_value : literal }.

Record directive := Directive {
  directive_name : string;
  directive_arguments : list argument
}.

Inductive selection :=
| Field (name : string) (arguments : list argument)
        (directives : list directive) (selection_set : option (list selection))
| InlineFragment (on : option string) (directives : list directive)
                 (selection_set : list selection)
| FragmentSpread (name : string) (directives : list directive).

Definition sel_directives (sel : selection) : list directive :=
  match sel with
  | Field _ _ ds _ => ds
  | InlineFragment _ ds _ => ds
  | FragmentSpread _ ds => ds
  end.

(** A declared variable type: [decl.type.name] is a string for a named type
    and the element type node for a list type. *)
Inductive gqltype :=
| NamedType (name : string) (nullable : bool)
| ListType (elem : gqltype) (nullable : bool).

Definition type_nullable (ty : gqltype) : bool :=
  match ty with NamedType _ n => n | ListType _ n => n end.

Definition type_list (ty : gqltype) : bool :=
  match ty with NamedType _ _ => false | ListType _ _ => true end.

Record variable_definition := VariableDefinition {
  decl_name : string;
  decl_type : gqltype;
  decl_value : option literal
}.

Record fragment_definition := FragmentDefinition {
  frag_name : string;
  frag_on : option string;
  frag_directives : list directive;
  frag_selections : list selection
}.

Record operation_definition := OperationDefinition {
  op_name : option string;
  op_type : option string;
  op_variables : list variable_definition;
  op_directives : list directive;
  op_selections : list selection
}.

Inductive definition :=
| DFragment (f : fragment_definition)
| DOperation (o : operation_definition).

Definition document := list definition.

(** ** The EdgeQL tree ([qlast]) *)

(** Modelled from the spec: the target node classes the translator
    instantiates, one constructor per class, one argument per keyword the
    translator passes somewhere; a keyword left out at a call site takes the
    class default ([None], or the empty list for a list-valued field). *)
Inductive ql :=
| SelectQueryNode (namespaces : list ql) (targets : list ql)
                  (where_ : option ql)
                  (op : option operator) (op_larg op_rarg : option ql)
| NamespaceAliasDeclNode (namespace : attr_value)
| SelectExprNode (expr : ql)
| PathNode (steps : list ql) (pathspec : list ql)
| PathStepNode (expr : string)
| SelectPathSpecNode (expr : ql) (where_ : option ql) (pathspec : list ql)
| LinkExprNode (expr : ql)
| LinkNode (name : string)
| BinOpNode (left : ql) (op : operator) (right : ql)
| ConstantNode (value : pyval) (index : option string)
| SequenceNode (elements : list ql).

(** ** Exceptions *)

(** An error message is kept as the pieces [str.format] assembles. *)
Inductive chunk :=
| Text (s : string)
| Repr (v : pyval)                (* {!r} *)
| Plain (v : pyval)               (* {} *)
| PlainClass (c : s_types.t).     (* {} applied to a class *)

Definition message := list chunk.

Inductive exn :=
| GraphQLValidationError (msg : message)
| SchemaError
| ValueError (msg : message)
| KeyError
| IndexError
| AttributeError
| NameError
| RecursionError.

Inductive result (A : Type) :=
| Ok (a : A)
| Raise (e : exn).
Arguments Ok {A} a.
Arguments Raise {A} e.

(** ** The schema *)

(** The two ways the translator names a type for [schema.get]: a bare
    concept name, or the pair of a module and a name. *)
Inductive schema_key :=
| KName (name : string)
| KQual (module : attr_value) (name : string).

(** Modelled from the spec: the schema object the translator queries, with
    type descriptors of an arbitrary type [T].  [get] answers [None] where
    the schema raises [SchemaError]; [resolve_pointer] gives the target of a
    link or property and [None] where there is no such pointer;
    [type_name] is [t.name.name]. *)
Record Schema (T : Type) := {
  get : schema_key -> option T;
  resolve_pointer : T -> string -> option T;
  issubclass : T -> T -> bool;
  type_name : T -> string;
  get_implementation_type : T -> option s_types.t
}.
Arguments get {T} _ _.
Arguments resolve_pointer {T} _ _ _.
Arguments issubclass {T} _ _ _.
Arguments type_name {T} _ _.
Arguments get_implementation_type {T} _ _.

(** ** Python string operations used by the translator *)

(** [s[-4:]] *)
Definition last4 (s : string) : string :=
  String.substring (String.length s - 4) 4 s.

(** [s[:-4]] *)
Definition drop_last4 (s : string) : string :=
  String.substring 0 (String.length s - 4) s.

(** [s[1:]] *)
Definition tail1 (s : string) : string :=
  match s with
  | EmptyString => EmptyString
  | String _ rest => rest
  end.

(** [s.split('__')]: cut at every occurrence of the separator, found left
    to right; [cur] holds the characters of the current part, reversed. *)
Fixpoint split_go (cur : string) (s : string) : list string :=
  match s with
  | EmptyString => [String.rev cur]
  | String c rest =>
      match rest with
      | String c' rest' =>
          if (Ascii.eqb c "_" && Ascii.eqb c' "_")%bool
          then String.rev cur :: split_go EmptyString rest'
          else split_go (String c cur) rest
      | EmptyString => [String.rev (String c cur)]
      end
  end.

Definition split_dunder (s : string) : list string := split_go EmptyString s.

(** Truth value of an optional string: [None] and [''] are false. *)
Definition truthy (s : option string) : bool :=
  match s with
  | Some (String _ _) => true
  | _ => false
  end.

(** ** The translator object and its monad *)

(** Ghost record of the reads of [self._vars]: in a directive condition
    ([_should_include]) or for an argument value ([_process_arguments]).
    It is written, never read, by the translator; the statements about
    critical variables refer to it. *)
Inductive read_event :=
| CondRead (name : string)
| ArgRead (name : string).

Record translator := Translator {
  _fragments : gmap string fragment_definition;
  _vars : gmap string (pyval * bool);     (* name -> [val, critical] *)
  reads : list read_event
}.

Definition M (A : Type) : Type := translator -> result (A * translator).

Definition ret {A} (a : A) : M A := fun self => Ok (a, self).

Definition bind {A B} (m : M A) (k : A -> M B) : M B :=
  fun self =>
    match m self with
    | Ok (a, self') => k a self'
    | Raise e => Raise e
    end.

Definition raise {A} (e : exn) : M A := fun _ => Raise e.

(** A computation that does not touch the translator object. *)
Definition lift {A} (r : result A) : M A :=
  fun self =>
    match r with
    | Ok a => Ok (a, self)
    | Raise e => Raise e
    end.

Definition rbind {A B} (r : result A) (k : A -> result B) : result B :=
  match r with
  | Ok a => k a
  | Raise e => Raise e
  end.

Declare Scope translator_scope.
Delimit Scope translator_scope with tr.
Notation "x <- m ;; k" := (bind m (fun x => k))
  (at level 100, m at next level, right associativity) : translator_scope.
Notation "m ;;; k" := (bind m (fun _ => k))
  (at level 100, right associativity) : translator_scope.
Notation "x <~ r ;; k" := (rbind r (fun x => k))
  (at level 100, r at next level, right associativity) : translator_scope.
Local Open Scope translator_scope.

(** ** [_get_module] *)

(** [{a.name: a.value.value for a in arguments}['module']]: the last
    argument called [module] wins. *)
Fixpoint args_module (args : list argument) (found : option attr_value)
  : option attr_value :=
  match args with
  | [] => found
  | a :: rest =>
      args_module rest
        (if String.eqb (arg_name a) "module"
         then Some (literal_value (arg_value a)) else found)
  end.

Fixpoint get_module_from (module : attr_value) (directives : list directive)
  : result attr_value :=
  match directives with
  | [] => Ok module
  | d :: rest =>
      if String.eqb (directive_name d) "edgedb" then
        match args_module (directive_arguments d) None with
        | Some m => get_module_from m rest
        | None => Raise KeyError
        end
      else get_module_from module rest
  end.

(** [module] starts as [None], the Python value [AVal PyNone]. *)
Definition get_module (directives : list directive) : result attr_value :=
  get_module_from (AVal PyNone) directives.

(** ** [_should_include] *)

(** [[a.value for a in directive.arguments if a.name == 'if'][0]] *)
Definition directive_if (d : directive) : result literal :=
  match List.filter (fun a => String.eqb (arg_name a) "if")
                    (directive_arguments d) with
  | a :: _ => Ok (arg_value a)
  | [] => Raise IndexError
  end.

(** [var = self._vars[name]; cond = var[0]; var[1] = True] *)
Definition read_cond_var (name : string) : M pyval :=
  fun self =>
    match _vars self !! name with
    | Some (val, _) =>
        Ok (val, {| _fragments := _fragments self;
                    _vars := <[name := (val, true)]> (_vars self);
                    reads := reads self ++ [CondRead name] |})
    | None => Raise KeyError
    end.

Definition is_conditional (name : string) : bool :=
  (String.eqb name "include" || String.eqb name "skip")%bool.

Definition not_boolean (name : string) : exn :=
  GraphQLValidationError
    [Text "'if' argument of "; Plain (PyStr name);
     Text " directive must be a Boolean"].

Definition eval_cond (d : directive) : M attr_value :=
  cond <- lift (directive_if d) ;;
  match cond with
  | Var name => val <- read_cond_var name ;; ret (AVal val)
  | _ => ret (literal_value cond)
  end.

Fixpoint should_include (directives : list directive) : M bool :=
  match directives with
  | [] => ret true
  | d :: rest =>
      if is_conditional (directive_name d) then
        cond <- eval_cond d ;;
        match cond with
        | AVal (PyBool b) =>
            if (String.eqb (directive_name d) "include" && negb b)%bool
            then ret false
            else if (String.eqb (directive_name d) "skip" && b)%bool
            then ret false
            else should_include rest
        | _ => raise (not_boolean (directive_name d))
        end
      else should_include rest
  end.

(** ** [_validate_value] *)

Definition should_be_list (kind name : string) : exn :=
  GraphQLValidationError
    [Text kind; Text " "; Repr (PyStr name); Text " should be a List"].

Definition not_of_type (val : pyval) (base_t : s_types.t) (name : string)
  : exn :=
  GraphQLValidationError
    [Text "value "; Repr val; Text " is not of type "; PlainClass base_t;
     Text " accepted by "; Repr (PyStr name)].

(** The loop [for val in value] *)
Fixpoint validate_each (name : string) (base_t : s_types.t)
         (value : list pyval) : result unit :=
  match value with
  | [] => Ok tt
  | val :: rest =>
      match PY_COERCION_MAP (type_of val) with
      | None => Raise KeyError
      | Some classes =>
          if s_types.issubclass base_t classes
          then validate_each name base_t rest
          else Raise (not_of_type val base_t name)
      end
  end.

Definition validate_value (name : string) (value : pyval)
           (base_t : s_types.t) (as_sequence : bool) : result unit :=
  if as_sequence then
    match value with
    | PyList items => validate_each name base_t items
    | _ => Raise (should_be_list "argument" name)
    end
  else validate_each name base_t [value].

(** ** [_populate_variable_defaults] *)

Definition get_vars : M (gmap string (pyval * bool)) :=
  fun self => Ok (_vars self, self).

Definition set_var (name : string) (entry : pyval * bool) : M unit :=
  fun self =>
    Ok (tt, {| _fragments := _fragments self;
               _vars := <[name := entry]> (_vars self);
               reads := reads self |}).

Definition nonnull_default (name : string) : exn :=
  GraphQLValidationError
    [Text "variable "; Repr (PyStr name);
     Text " cannot be non-nullable and have a default"].

Definition missing_value (name : string) : exn :=
  GraphQLValidationError
    [Text "non-nullable variable "; Repr (PyStr name);
     Text " is missing a value"].

(** [GQL_TYPE_NAMES_MAP[key]] *)
Definition type_names_lookup (key : option string) : result s_types.t :=
  match key with
  | Some name =>
      match GQL_TYPE_NAMES_MAP name with
      | Some t => Ok t
      | None => Raise KeyError
      end
  | None => Raise KeyError
  end.

(** [decl.type.name] when it is a string, for a named type, and
    [decl.type.name.name] likewise for a list type. *)
Definition scalar_name (ty : gqltype) : option string :=
  match ty with
  | NamedType name _ => Some name
  | ListType (NamedType name _) _ => Some name
  | ListType (ListType _ _) _ => None
  end.

(** [x is not None] *)
Definition is_not_none {A} (x : option A) : bool :=
  match x with
  | Some _ => true
  | None => false
  end.

(** The body of the loop over the declarations. *)
Definition populate_variable (decl : variable_definition) : M unit :=
  if (is_not_none (decl_value decl)
      && negb (type_nullable (decl_type decl)))%bool
  then raise (nonnull_default (decl_name decl))
  else
    variables <- get_vars ;;
    (match variables !! decl_name decl with
     | Some _ => ret tt
     | None =>
         match decl_value decl with
         | None => set_var (decl_name decl) (PyNone, false)
         | Some default => set_var (decl_name decl) (topython default, false)
         end
     end) ;;;
    variables <- get_vars ;;
    match variables !! decl_name decl with
    | None => raise KeyError
    | Some (val, _) =>
        match val with
        | PyNone =>
            if negb (type_nullable (decl_type decl))
            then raise (missing_value (decl_name decl))
            else ret tt
        | _ =>
            if type_list (decl_type decl) then
              match val with
              | PyList _ =>
                  lift (base_t <~ type_names_lookup
                                    (scalar_name (decl_type decl)) ;;
                        validate_value (decl_name decl) val base_t true)
              | _ => raise (should_be_list "variable" (decl_name decl))
              end
            else
              lift (base_t <~ type_names_lookup
                                (scalar_name (decl_type decl)) ;;
                    validate_value (decl_name decl) val base_t false)
        end
    end.

Fixpoint populate_variable_defaults (declarations : list variable_definition)
  : M unit :=
  match declarations with
  | [] => ret tt
  | decl :: rest =>
      populate_variable decl ;;; populate_variable_defaults rest
  end.

(** ** [_process_literal] *)

Definition object_literal : exn :=
  GraphQLValidationError
    [Text "don't know how to translate an Object literal to EdgeQL"].

Fixpoint process_literal (lit : literal) : result ql :=
  match lit with
  | ListLiteral value =>
      elements <~
        (fix each (els : list literal) : result (list ql) :=
           match els with
           | [] => Ok []
           | el :: rest =>
               x <~ process_literal el ;;
               xs <~ each rest ;;
               Ok (x :: xs)
           end) value ;;
      Ok (SequenceNode elements)
  | ObjectLiteral _ => Raise object_literal
  | Var value => Ok (ConstantNode PyNone (Some (tail1 value)))
  | ScalarLiteral value => Ok (ConstantNode value None)
  end.

(** ** [_join_expressions] *)

Definition join_expressions (exprs : list ql) (op : operator) : result ql :=
  match exprs with
  | [] => Raise IndexError
  | [e] => Ok e
  | e0 :: e1 :: rest =>
      Ok (fold_left (fun result expr => BinOpNode result op expr) rest
                    (BinOpNode e0 op e1))
  end.

Section WithSchema.

Context {T : Type} (schema : Schema T).

(** ** [_validate_arg] *)

(** The loop [for step in path.steps[1:]]: follows the pointers and keeps
    the loop variable [step], of which [step.expr.name] is read after the
    loop. *)
Fixpoint resolve_steps (target : T) (last : option string) (steps : list ql)
  : result (T * option string) :=
  match steps with
  | [] => Ok (target, last)
  | LinkExprNode (LinkNode name) :: rest =>
      match resolve_pointer schema target name with
      | Some target' => resolve_steps target' (Some name) rest
      | None => Raise AttributeError
      end
  | _ :: _ => Raise AttributeError
  end.

Definition validate_arg (path : ql) (value : pyval) (as_sequence : bool)
  : result unit :=
  match value with
  | PyNone => Ok tt
  | _ =>
      match path with
      | PathNode (PathStepNode expr :: steps) _ =>
          match get schema (KName expr) with
          | None => Raise SchemaError
          | Some target =>
              resolved <~ resolve_steps target None steps ;;
              let '(target, last) := resolved in
              match get_implementation_type schema target with
              | None => Raise AttributeError
              | Some base_t =>
                  match last with
                  | None => Raise NameError
                  | Some name => validate_value name value base_t as_sequence
                  end
              end
          end
      | PathNode [] _ => Raise IndexError
      | _ => Raise AttributeError
      end
  end.

(** ** [_process_arguments] *)

(** [self._vars[name][0]] for an argument value *)
Definition read_arg_var (name : string) : M pyval :=
  fun self =>
    match _vars self !! name with
    | Some (val, _) =>
        Ok (val, {| _fragments := _fragments self;
                    _vars := _vars self;
                    reads := reads self ++ [ArgRead name] |})
    | None => Raise KeyError
    end.

(** The operator and the name parts of an argument name. *)
Definition arg_op (name : string) : operator * string :=
  match GQL_OPS_MAP (last4 name) with
  | Some op => (op, drop_last4 name)
  | None => (EQ, name)
  end.

Definition link_step (name : string) : ql := LinkExprNode (LinkNode name).

(** [el.value] for the elements of a sequence node *)
Definition element_value (el : ql) : result pyval :=
  match el with
  | ConstantNode value _ => Ok value
  | _ => Raise AttributeError
  end.

Fixpoint element_values (els : list ql) : result (list pyval) :=
  match els with
  | [] => Ok []
  | el :: rest =>
      v <~ element_value el ;;
      vs <~ element_values rest ;;
      Ok (v :: vs)
  end.

(** The value handed to [_validate_arg]. *)
Definition check_value_of (arg : argument) (value : ql) : M pyval :=
  match value with
  | ConstantNode val index =>
      if truthy index then
        match literal_value (arg_value arg) with
        | AVal (PyStr name) => read_arg_var name
        | _ => raise KeyError
        end
      else ret val
  | SequenceNode elements =>
      vs <- lift (element_values elements) ;; ret (PyList vs)
  | _ => raise AttributeError
  end.

Definition is_membership (op : operator) : bool :=
  match op with
  | IN | NOT_IN => true
  | _ => false
  end.

(** The body of the loop over the arguments. *)
Definition process_argument (get_path_prefix : result (list ql))
           (arg : argument) : M (ql * operator * ql) :=
  let '(op, name_parts) := arg_op (arg_name arg) in
  prefix <- lift get_path_prefix ;;
  let name :=
    PathNode (prefix ++ List.map link_step (split_dunder name_parts)) [] in
  value <- lift (process_literal (arg_value arg)) ;;
  check_value <- check_value_of arg value ;;
  lift (validate_arg name check_value (is_membership op)) ;;;
  ret (name, op, value).

Fixpoint process_arguments (get_path_prefix : result (list ql))
         (args : list argument) : M (list (ql * operator * ql)) :=
  match args with
  | [] => ret []
  | arg :: rest =>
      x <- process_argument get_path_prefix arg ;;
      xs <- process_arguments get_path_prefix rest ;;
      ret (x :: xs)
  end.

Definition binop (x : ql * operator * ql) : ql :=
  let '(lhs, op, rhs) := x in BinOpNode lhs op rhs.

(** ** [_process_select_where] and [_process_path_where] *)

Definition where_of (get_path_prefix : result (list ql))
           (arguments : list argument) : M (option ql) :=
  match arguments with
  | [] => ret None
  | _ :: _ =>
      args <- process_arguments get_path_prefix arguments ;;
      e <- lift (join_expressions (List.map binop args) AND) ;;
      ret (Some e)
  end.

Definition process_select_where (name : string) (arguments : list argument)
  : M (option ql) :=
  where_of (Ok [PathStepNode name]) arguments.

(** [get_path_prefix] of [_process_path_where] *)
Definition path_prefix (base : list string) : result (list ql) :=
  match base with
  | [] => Raise IndexError
  | root :: links => Ok (PathStepNode root :: List.map link_step links)
  end.

Definition process_path_where (base : list string)
           (arguments : list argument) : M (option ql) :=
  where_of (path_prefix base) arguments.

(** ** [_validate_fragment_type] *)

Fixpoint resolve_base (baseType : T) (steps : list string) : result T :=
  match steps with
  | [] => Ok baseType
  | step :: rest =>
      match resolve_pointer schema baseType step with
      | Some target => resolve_base target rest
      | None => Raise AttributeError
      end
  end.

(** An optional string as a Python value, [None] when absent *)
Definition name_value (name : option string) : pyval :=
  match name with
  | Some n => PyStr n
  | None => PyNone
  end.

(** What lines 274-281 raise once the two types are found unrelated.
    [frag.name] is read first, at line 274.  A fragment definition carries a
    name; an inline fragment has no such attribute ([name = None] below), so
    for it the read raises [AttributeError] and no message is built.  The
    message of the [else] branch has one placeholder for its two arguments
    and shows the first, the name. *)
Definition incompatible (name : option string) (baseType : T) : exn :=
  match name with
  | None => AttributeError
  | Some n =>
      GraphQLValidationError
        (if truthy name then
           [Text "fragment "; Repr (PyStr n);
            Text " is incompatible with ";
            Repr (PyStr (type_name schema baseType))]
         else
           [Text "inline fragment is incompatible with "; Repr (PyStr n)])
  end.

(** [frag] is either a fragment definition or an inline fragment; [name] is
    its attribute [name], [None] for an inline fragment, which has none. *)
Definition validate_fragment_type (base : list string)
           (name : option string) (on : option string)
           (directives : list directive) : result unit :=
  match on with
  | None => Ok tt
  | Some on =>
      fragmodule <~ get_module directives ;;
      match get schema (KQual fragmodule on) with
      | None => Raise SchemaError
      | Some fragType =>
          match base with
          | [] => Raise IndexError
          | root :: steps =>
              match get schema (KName root) with
              | None => Raise SchemaError
              | Some baseType =>
                  baseType <~ resolve_base baseType steps ;;
                  if (negb (issubclass schema baseType fragType)
                      && negb (issubclass schema fragType baseType))%bool
                  then Raise (incompatible name baseType)
                  else Ok tt
              end
          end
      end
  end.

(** ** [_process_pathspec] and the methods it dispatches to *)

Section Nested.

(** [self._process_pathspec] as called from one activation further
    down the Python stack. *)
Variable process_pathspec_rec :
  list string -> list selection -> M (list ql).

Definition process_field (base : list string) (name : string)
           (arguments : list argument)
           (selection_set : option (list selection)) : M ql :=
  let base := base ++ [name] in
  where_ <- process_path_where base arguments ;;
  match selection_set with
  | Some selections =>
      pathspec <- process_pathspec_rec base selections ;;
      ret (SelectPathSpecNode (link_step name) where_ pathspec)
  | None => ret (SelectPathSpecNode (link_step name) where_ [])
  end.

Definition process_inline_fragment (base : list string)
           (on : option string) (directives : list directive)
           (selections : list selection) : M (list ql) :=
  lift (validate_fragment_type base None on directives) ;;;
  process_pathspec_rec base selections.

Definition process_spread (base : list string) (name : string)
  : M (list ql) :=
  fun self =>
    match _fragments self !! name with
    | None => Raise KeyError
    | Some frag =>
        (lift (validate_fragment_type base (Some (frag_name frag))
                 (frag_on frag) (frag_directives frag)) ;;;
         process_pathspec_rec base (frag_selections frag)) self
    end.

(** The loop of [_process_pathspec]. *)
Fixpoint pathspec_loop (base : list string) (selections : list selection)
  : M (list ql) :=
  match selections with
  | [] => ret []
  | sel :: rest =>
      included <- should_include (sel_directives sel) ;;
      if negb included then pathspec_loop base rest
      else
        specs <- match sel with
                 | Field name arguments _ selection_set =>
                     spec <- process_field base name arguments
                               selection_set ;;
                     ret [spec]
                 | InlineFragment on directives selections =>
                     process_inline_fragment base on directives selections
                 | FragmentSpread name _ =>
                     process_spread base name
                 end ;;
        more <- pathspec_loop base rest ;;
        ret (specs ++ more)
  end.

End Nested.

(** [depth] bounds how many activations of [_process_pathspec] may be
    nested one inside another before the interpreter raises
    [RecursionError]. *)
Fixpoint process_pathspec (depth : nat) (base : list string)
         (selections : list selection) : M (list ql) :=
  match depth with
  | O => raise RecursionError
  | S depth' => pathspec_loop (process_pathspec depth') base selections
  end.

(** ** [_process_selset] *)

Definition does_not_exist (concept : string) : exn :=
  GraphQLValidationError
    [Repr (PyStr concept); Text " does not exist in the schema"].

(** The root selection is read through [selset.name], [selset.arguments]
    and [selset.selection_set.selections], the attributes of a field. *)
Definition process_selset (depth : nat) (selset : selection) : M ql :=
  match selset with
  | Field concept _ _ selection_set =>
      match get schema (KName concept) with
      | None => raise (does_not_exist concept)
      | Some _ =>
          match selection_set with
          | None => raise AttributeError
          | Some selections =>
              pathspec <- process_pathspec depth [concept] selections ;;
              ret (SelectExprNode
                     (PathNode [PathStepNode concept] pathspec))
          end
      end
  | FragmentSpread concept _ =>
      match get schema (KName concept) with
      | None => raise (does_not_exist concept)
      | Some _ => raise AttributeError
      end
  | InlineFragment _ _ _ => raise AttributeError
  end.

(** [_process_select_where(selset)] on a root selection *)
Definition select_where (selset : selection) : M (option ql) :=
  match selset with
  | Field name arguments _ _ => process_select_where name arguments
  | _ => raise AttributeError
  end.

(** ** [_process_definition] *)

(** The select query built for one root selection; the keyword arguments
    are evaluated in the order written. *)
Definition selquery_of (depth : nat) (module : attr_value)
           (selset : selection) : M ql :=
  target <- process_selset depth selset ;;
  where_ <- select_where selset ;;
  ret (SelectQueryNode [NamespaceAliasDeclNode module] [target] where_
                       None None None).

Definition union_node (query selquery : ql) : ql :=
  SelectQueryNode [] [] None (Some UNION) (Some query) (Some selquery).

(** The loop over the root selections, [query] being the loop-carried
    variable. *)
Fixpoint definition_loop (depth : nat) (module : attr_value)
         (query : option ql) (selections : list selection)
  : M (option ql) :=
  match selections with
  | [] => ret query
  | selset :: rest =>
      selquery <- selquery_of depth module selset ;;
      definition_loop depth module
        (match query with
         | None => Some selquery
         | Some query => Some (union_node query selquery)
         end) rest
  end.

Definition is_query (ty : option string) : bool :=
  match ty with
  | None => true
  | Some ty => String.eqb ty "query"
  end.

Definition unsupported (ty : option string) : exn :=
  ValueError [Text "unsupported definition type: "; Repr (name_value ty)].

Definition process_definition (depth : nat)
           (definition : operation_definition) : M (option ql) :=
  if is_query (op_type definition) then
    populate_variable_defaults (op_variables definition) ;;;
    module <- lift (get_module (op_directives definition)) ;;
    definition_loop depth module None (op_selections definition)
  else raise (unsupported (op_type definition)).

End WithSchema.

(** ** [translate] *)

(** The order of [critvars.sort()] on the pairs [(name, val)]: the names are
    the keys of a dictionary, hence distinct, so the first components
    decide. *)
Definition name_le (x y : string * pyval) : Prop := String.le x.1 y.1.

#[global] Instance name_le_dec : RelDecision name_le.
Proof. intros x y. unfold name_le. apply _. Defined.

(** [[(name, val) for name, (val, crit) in self._vars.items() if crit]] *)
Definition critical_items (vars : gmap string (pyval * bool))
  : list (string * pyval) :=
  List.map (fun x : string * (pyval * bool) => (x.1, x.2.1))
    (List.filter (fun x : string * (pyval * bool) => x.2.2)
       (map_to_list vars)).

Definition critvars_of (vars : gmap string (pyval * bool))
  : list (string * pyval) :=
  merge_sort name_le (critical_items vars).

(** [{f.name: f for f in gqltree.definitions if isinstance(f, FragmentDefinition)}] *)
Definition fragments_of (gqltree : document)
  : gmap string fragment_definition :=
  fold_left (fun m d =>
               match d with
               | DFragment f => <[frag_name f := f]> m
               | DOperation _ => m
               end) gqltree ∅.

(** [{name: [val, False] for name, val in variables.items()}] *)
Definition fresh_vars (variables : gmap string pyval)
  : gmap string (pyval * bool) :=
  (fun val => (val, false)) <$> variables.

Definition set_fragments (fragments : gmap string fragment_definition)
  : M unit :=
  fun self =>
    Ok (tt, {| _fragments := fragments;
               _vars := _vars self;
               reads := reads self |}).

Definition set_vars (vars : gmap string (pyval * bool)) : M unit :=
  fun self =>
    Ok (tt, {| _fragments := _fragments self;
               _vars := vars;
               reads := [] |}).

Definition forest : Type :=
  gmap (option string) (option ql * list (string * pyval)).

Section Translate.

Context {T : Type} (schema : Schema T).

(** One operation definition: the body of the loop of [translate]. *)
Definition translate_operation (depth : nat)
           (variables : gmap string pyval)
           (definition : operation_definition)
  : M (option ql * list (string * pyval)) :=
  set_vars (fresh_vars variables) ;;;
  query <- process_definition schema depth definition ;;
  vars <- get_vars ;;
  ret (query, critvars_of vars).

Fixpoint translate_loop (depth : nat) (variables : gmap string pyval)
         (definitions : list definition) (result : forest) : M forest :=
  match definitions with
  | [] => ret result
  | DFragment _ :: rest => translate_loop depth variables rest result
  | DOperation definition :: rest =>
      r <- translate_operation depth variables definition ;;
      translate_loop depth variables rest
        (<[op_name definition := r]> result)
  end.

Definition translate (depth : nat) (gqltree : document)
           (variables : gmap string pyval) : M forest :=
  set_fragments (fragments_of gqltree) ;;;
  translate_loop depth variables gqltree ∅.

End Translate.

(** * Vocabulary of the statements *)

(** ** Value validation *)

(** The four native kinds of the coercion table, as the specification
    names them. *)
Inductive native :=
| NText (s : string)
| NInteger (n : Z)
| NReal (bits : Z)
| NBoolean (b : bool).

Definition native_value (x : native) : pyval :=
  match x with
  | NText s => PyStr s
  | NInteger n => PyInt n
  | NReal bits => PyFloat bits
  | NBoolean b => PyBool b
  end.

(** The compatibility table in the words of the specification: integer
    values against integer, floating-point, decimal and ID types; text
    against text and ID; real against floating-point and decimal; boolean
    against boolean only. *)
Definition accepts (x : native) (base_t : s_types.t) : bool :=
  match x, base_t with
  | NInteger _, (s_types.Int | s_types.Float | s_types.Decimal | s_types.UUID)
  | NText _, (s_types.Str | s_types.UUID)
  | NReal _, (s_types.Float | s_types.Decimal)
  | NBoolean _, s_types.Bool => true
  | _, _ => false
  end.

(** The three things a rejection message has to carry. *)
Definition mentions (e : exn) (name : string) (val : pyval)
           (base_t : s_types.t) : Prop :=
  exists msg, e = GraphQLValidationError msg
              /\ In (Repr (PyStr name)) msg
              /\ In (Repr val) msg
              /\ In (PlainClass base_t) msg.


(** ** Filter arguments *)

(** The path an argument is compared at: the prefix followed by one link
    step per part of the argument name. *)
Definition arg_path (prefix : list ql) (arg : argument) : ql :=
  PathNode
    (prefix ++ List.map link_step (split_dunder (arg_op (arg_name arg)).2)) [].

(** An argument whose decoded value is null: the null literal, or a
    variable bound to [None]. *)
Definition decoded_null (arg : argument) (self : translator) : Prop :=
  arg_value arg = ScalarLiteral PyNone
  \/ exists name crit,
       arg_value arg = Var name /\ _vars self !! name = Some (PyNone, crit).

(** ** Root selections *)

(** The select queries of the root selections, one after the other. *)
Fixpoint selqueries {T} (schema : Schema T) (depth : nat)
         (module : attr_value) (selections : list selection) : M (list ql) :=
  match selections with
  | [] => ret []
  | selset :: rest =>
      q <- selquery_of schema depth module selset ;;
      qs <- selqueries schema depth module rest ;;
      ret (q :: qs)
  end.

(** The union of a list of queries, nested to the left. *)
Definition union_all (queries : list ql) : option ql :=
  match queries with
  | [] => None
  | q :: rest => Some (fold_left union_node rest q)
  end.

(** The loop-carried query after some more select queries. *)
Definition accumulate (query : option ql) (queries : list ql) : option ql :=
  match query with
  | None => union_all queries
  | Some q => Some (fold_left union_node queries q)
  end.

(** What a computation yields, leaving the translator object aside. *)
Definition outcome {A} (r : result (A * translator)) : result A :=
  match r with
  | Ok (a, _) => Ok a
  | Raise e => Raise e
  end.

(** ** Variable declarations *)

(** The value a declared variable has once its default has been seeded:
    the binding already in the environment, or else the decoded default,
    or else [None]. *)
Definition value_after_seeding (decl : variable_definition)
           (self : translator) : pyval :=
  match _vars self !! decl_name decl with
  | Some (val, _) => val
  | None =>
      match decl_value decl with
      | None => PyNone
      | Some default => topython default
      end
  end.

(** ** Fragments *)

(** The type the base path resolves to: the root concept, then the target
    of each link in turn. *)
Definition base_type {T} (schema : Schema T) (base : list string)
  : result T :=
  match base with
  | [] => Raise IndexError
  | root :: steps =>
      match get schema (KName root) with
      | None => Raise SchemaError
      | Some baseType => resolve_base schema baseType steps
      end
  end.

(** Related by subtyping, in either direction. *)
Definition related {T} (schema : Schema T) (a b : T) : bool :=
  (issubclass schema a b || issubclass schema b a)%bool.

(** ** Critical variables *)




(** ** Name parts *)

(** Two underscores in a row, somewhere in the string. *)
Fixpoint has_dunder (s : string) : bool :=
  match s with
  | String a rest =>
      match rest with
      | String b _ =>
          (Ascii.eqb a "_" && Ascii.eqb b "_" || has_dunder rest)%bool
      | EmptyString => false
      end
  | EmptyString => false
  end.

(** The first character of a string, as a string. *)
Definition first_char (s : string) : string :=
  match s with
  | String c _ => String c EmptyString
  | EmptyString => EmptyString
  end.

(** ** Argument names *)

(** The operator suffixes of the specification. *)
Definition suffixes : list (string * operator) :=
  [("__eq", EQ); ("__ne", NE); ("__in", IN); ("__ni", NOT_IN)].

(** An argument name resolves to an operator and a remaining portion: by
    its trailing suffix when it has one, and to exact equality with the
    whole name when it has none. *)
Inductive resolves (name : string) : operator -> string -> Prop :=
| resolves_suffix stem sfx op :
    In (sfx, op) suffixes -> name = stem +:+ sfx -> resolves name op stem
| resolves_plain :
    (forall stem sfx op, In (sfx, op) suffixes -> name <> stem +:+ sfx) ->
    resolves name EQ name.

(** The conjunction of a non-empty list of comparisons, nested to the
    left. *)
Definition conjunction (first : ql) (others : list ql) : ql :=
  fold_left (fun acc x => BinOpNode acc AND x) others first.

(** Splitting at the double underscores, as [str.split] cuts: a portion
    without two underscores in a row is its own single part; otherwise the
    first part is what stands before the leftmost pair of underscores (so
    it holds no such pair, even with the first underscore of the separator
    added), and the other parts are those of what follows the pair. *)
Inductive splits : string -> list string -> Prop :=
| splits_whole s :
    has_dunder s = false -> splits s [s]
| splits_at part rest parts :
    has_dunder (part +:+ "_") = false ->
    splits rest parts ->
    splits (part +:+ "__" +:+ rest) (part :: parts).

(** The value of an element of a list literal: the payload of a scalar.  A
    variable inside a list is not looked up, its element value is [None];
    a list or an object inside a list has no value. *)
Definition element_decoded (el : literal) : option pyval :=
  match el with
  | ScalarLiteral v => Some v
  | Var _ => Some PyNone
  | ListLiteral _ | ObjectLiteral _ => None
  end.

Fixpoint elements_decoded (els : list literal) : option (list pyval) :=
  match els with
  | [] => Some []
  | el :: rest =>
      match element_decoded el, elements_decoded rest with
      | Some v, Some vs => Some (v :: vs)
      | _, _ => None
      end
  end.

(** The decoded value of an argument, read off the literal and the
    environment: a variable reference resolved through the environment
    ([None] for a reference whose name has nothing after its first
    character), the payload of a scalar literal, a list literal unwrapped
    to the values of its elements. *)
Definition decoded_value (vars : gmap string (pyval * bool))
           (lit : literal) : option pyval :=
  match lit with
  | Var name =>
      match tail1 name with
      | EmptyString => Some PyNone
      | String _ _ =>
          match vars !! name with
          | Some (val, _) => Some val
          | None => None
          end
      end
  | ScalarLiteral v => Some v
  | ListLiteral els =>
      match elements_decoded els with
      | Some vs => Some (PyList vs)
      | None => None
      end
  | ObjectLiteral _ => None
  end.

(** [[self._process_literal(el) for el in literal.value]], the coerced
    elements of a list literal, one after the other. *)
Fixpoint process_literals (els : list literal) : result (list ql) :=
  match els with
  | [] => Ok []
  | el :: rest =>
      x <~ process_literal el ;;
      xs <~ process_literals rest ;;
      Ok (x :: xs)
  end.

(** What one argument contributes and how it was checked, in a translator
    state [self]: the operator and remaining portion of its name, the parts
    of that portion as link steps after the prefix, the coerced value, and
    the validation of the decoded value, as a list for the two membership
    operators and as a single value for the others. *)
Definition argument_rule {T} (schema : Schema T) (prefix : list ql)
           (self : translator) (arg : argument) (x : ql * operator * ql)
  : Prop :=
  let '(path, op, value) := x in
  exists stem parts decoded,
    resolves (arg_name arg) op stem
    /\ splits stem parts
    /\ path
       = PathNode
           (prefix ++ List.map (fun part => LinkExprNode (LinkNode part)) parts)
           []
    /\ process_literal (arg_value arg) = Ok value
    /\ decoded_value (_vars self) (arg_value arg) = Some decoded
    /\ (op = IN \/ op = NOT_IN ->
        validate_arg schema path decoded true = Ok tt
        /\ (decoded = PyNone \/ exists items, decoded = PyList items))
    /\ (op <> IN /\ op <> NOT_IN ->
        validate_arg schema path decoded false = Ok tt
        /\ (decoded = PyNone \/ exists x, decoded = native_value x)).

(** ** A concrete schema

    The concepts of the test schema of the repository ([NamedObject],
    [Group], [Setting], [Profile], [User]) with their links, used to run the
    translator on concrete documents. *)
Module Sample.

Inductive ty :=
| NamedObject | Group | Setting | Profile | User
| str | int | float | bool | uuid.

Definition ty_eqb (a b : ty) : Datatypes.bool :=
  match a, b with
  | NamedObject, NamedObject | Group, Group | Setting, Setting
  | Profile, Profile | User, User | str, str | int, int
  | float, float | bool, bool | uuid, uuid => true
  | _, _ => false
  end.

Definition by_name (name : string) : option ty :=
  if String.eqb name "NamedObject" then Some NamedObject
  else if String.eqb name "Group" then Some Group
  else if String.eqb name "Setting" then Some Setting
  else if String.eqb name "Profile" then Some Profile
  else if String.eqb name "User" then Some User
  else None.

Definition lookup (key : schema_key) : option ty :=
  match key with
  | KName name => by_name name
  | KQual _ name => by_name name
  end.

Definition is_concept (t : ty) : Datatypes.bool :=
  match t with
  | NamedObject | Group | Setting | Profile | User => true
  | _ => false
  end.

Definition pointer (t : ty) (name : string) : option ty :=
  if negb (is_concept t) then None
  else if String.eqb name "id" then Some uuid
  else if String.eqb name "name" then Some str
  else match t with
       | Group => if String.eqb name "settings" then Some Setting else None
       | Setting | Profile =>
           if String.eqb name "value" then Some str else None
       | User =>
           if String.eqb name "active" then Some bool
           else if String.eqb name "groups" then Some Group
           else if String.eqb name "age" then Some int
           else if String.eqb name "score" then Some float
           else if String.eqb name "profile" then Some Profile
           else None
       | _ => None
       end.

Definition subclass (a b : ty) : Datatypes.bool :=
  (ty_eqb a b || (is_concept a && ty_eqb b NamedObject))%bool.

Definition local_name (t : ty) : string :=
  match t with
  | NamedObject => "NamedObject" | Group => "Group" | Setting => "Setting"
  | Profile => "Profile" | User => "User" | str => "str" | int => "int"
  | float => "float" | bool => "bool" | uuid => "uuid"
  end.

Definition implementation (t : ty) : option s_types.t :=
  match t with
  | str => Some s_types.Str
  | int => Some s_types.Int
  | float => Some s_types.Float
  | bool => Some s_types.Bool
  | uuid => Some s_types.UUID
  | _ => None
  end.

Definition schema : Schema ty :=
  {| get := lookup;
     resolve_pointer := pointer;
     issubclass := subclass;
     type_name := local_name;
     get_implementation_type := implementation |}.

(** A translator object as [__init__] leaves it. *)
Definition new : translator :=
  {| _fragments := ∅; _vars := ∅; reads := [] |}.

Definition field (name : string) : selection := Field name [] [] None.

Definition query (selections : list selection) : operation_definition :=
  {| op_name := None; op_type := None; op_variables := [];
     op_directives := []; op_selections := selections |}.

Definition skip_if (cond : literal) : directive :=
  Directive "skip" [Argument "if" cond].

Definition include_if (cond : literal) : directive :=
  Directive "include" [Argument "if" cond].

End Sample.

(** [fragment F on Group { name }  query { User { ...F } }] *)
Definition spread_document : document :=
  [DFragment (FragmentDefinition "F" (Some "Group") []
                [Sample.field "name"]);
   DOperation (Sample.query
                 [Field "User" [] [] (Some [FragmentSpread "F" []])])].

(** [query { User { ... on Group { name } } }] *)
Definition inline_document : document :=
  [DOperation
     (Sample.query
        [Field "User" [] []
           (Some [InlineFragment (Some "Group") [] [Sample.field "name"]])])].

(** [query { User { age  ... on NamedObject { name } } }] *)
Definition related_inline_document : document :=
  [DOperation
     (Sample.query
        [Field "User" [] []
           (Some [Sample.field "age";
                  InlineFragment (Some "NamedObject") []
                    [Sample.field "name"]])])].

(** [query { User(id__eq: $id) { name  groups @skip(if: $flag) { id } } }] *)
Definition flag_document : document :=
  [DOperation
     (Sample.query
        [Field "User" [Argument "id__eq" (Var "$id")] []
           (Some [Sample.field "name";
                  Field "groups" [] [Sample.skip_if (Var "$flag")]
                    (Some [Sample.field "id"])])])].

Definition flag_variables : gmap string pyval :=
  {[ "$id" := PyStr "u1"; "$flag" := PyBool true ]}.

(** [score__in: [1, 2], name: null, age__ne: 3] *)
Definition sample_arguments : list argument :=
  [Argument "score__in"
     (ListLiteral [ScalarLiteral (PyInt 1); ScalarLiteral (PyInt 2)]);
   Argument "name" (ScalarLiteral PyNone);
   Argument "age__ne" (ScalarLiteral (PyInt 3))].

(** [profile__value__ne: "x", groups__settings__name__in: $names] *)
Definition nested_arguments : list argument :=
  [Argument "profile__value__ne" (ScalarLiteral (PyStr "x"));
   Argument "groups__settings__name__in" (Var "$names")].

Definition names_bound : translator :=
  {| _fragments := ∅;
     _vars := {[ "$names" := (PyList [PyStr "a"; PyStr "b"], false) ]};
     reads := [] |}.

(** [query { User @skip(if: true) { name } }] *)
Definition skipped_root_document : document :=
  [DOperation
     (Sample.query
        [Field "User" [] [Sample.skip_if (ScalarLiteral (PyBool true))]
           (Some [Sample.field "name"])])].

(** [query { User { name @skip(if: true) } }] *)
Definition skipped_field_document : document :=
  [DOperation
     (Sample.query
        [Field "User" [] []
           (Some [Field "name" []
                    [Sample.skip_if (ScalarLiteral (PyBool true))] None])])].

(** [query { User Group }] *)
Definition bare_roots_document : document :=
  [DOperation (Sample.query [Sample.field "User"; Sample.field "Group"])].

(** The select query of a root concept with the given shape and no
    filter. *)
Definition select_of (concept : string) (pathspec : list ql) : ql :=
  SelectQueryNode [NamespaceAliasDeclNode (AVal PyNone)]
    [SelectExprNode (PathNode [PathStepNode concept] pathspec)]
    None None None None.

(** * Vocabulary of the further statements *)

(** ** Directives *)

Definition is_edgedb (d : directive) : bool :=
  String.eqb (directive_name d) "edgedb".

Definition is_module_arg (a : argument) : bool :=
  String.eqb (arg_name a) "module".

(** The [module] argument of a directive: the last one when it is given
    more than once. *)
Definition module_arg (d : directive) : option attr_value :=
  match List.rev (List.filter is_module_arg (directive_arguments d)) with
  | a :: _ => Some (literal_value (arg_value a))
  | [] => None
  end.

(** All of a list of optional values, when none is missing. *)
Fixpoint all_present {A} (l : list (option A)) : option (list A) :=
  match l with
  | [] => Some []
  | Some x :: rest =>
      match all_present rest with
      | Some xs => Some (x :: xs)
      | None => None
      end
  | None :: _ => None
  end.

(** The Boolean a conditional directive tests against an environment: a
    Boolean literal, or a variable bound to a Boolean. *)
Definition cond_value (vars : gmap string (pyval * bool)) (d : directive)
  : option bool :=
  match directive_if d with
  | Ok (ScalarLiteral (PyBool b)) => Some b
  | Ok (Var name) =>
      match vars !! name with
      | Some (PyBool b, _) => Some b
      | _ => None
      end
  | _ => None
  end.

(** A conditional directive that rules its selection out: [include] on
    false, [skip] on true. *)
Definition rules_out (vars : gmap string (pyval * bool)) (d : directive)
  : bool :=
  match cond_value vars d with
  | Some b =>
      (String.eqb (directive_name d) "include" && negb b
       || String.eqb (directive_name d) "skip" && b)%bool
  | None => false
  end.

(** Conditional directives all of whose conditions are Booleans. *)
Definition well_conditioned (vars : gmap string (pyval * bool))
           (directives : list directive) : Prop :=
  forall d, In d directives ->
            is_conditional (directive_name d) = true ->
            cond_value vars d <> None.

(** Two environments that bind the same names to the same values, the
    flags apart. *)
Definition same_values (vars vars' : gmap string (pyval * bool)) : Prop :=
  forall name, fst <$> vars !! name = fst <$> vars' !! name.

(** ** Values *)

(** A value of one of the four native kinds that the coercion table lets
    through for a schema type. *)
Definition accepted_by (base_t : s_types.t) (v : pyval) : bool :=
  match PY_COERCION_MAP (type_of v) with
  | Some classes => s_types.issubclass base_t classes
  | None => false
  end.

(** ** Literals *)

(** No object literal, at any depth. *)
Fixpoint object_free (lit : literal) : bool :=
  match lit with
  | ListLiteral value => forallb object_free value
  | ObjectLiteral _ => false
  | Var _ | ScalarLiteral _ => true
  end.

(** The node an object-free literal becomes: a constant for a scalar, a
    constant that points at the variable for a variable, a sequence of the
    same length and order for a list. *)
Fixpoint constant_of (lit : literal) : ql :=
  match lit with
  | ListLiteral value => SequenceNode (List.map constant_of value)
  | ObjectLiteral _ => SequenceNode []
  | Var value => ConstantNode PyNone (Some (tail1 value))
  | ScalarLiteral value => ConstantNode value None
  end.

(** ** Filters *)

(** The comparisons of a filter, read back from the left-nested
    conjunction. *)
Fixpoint conjuncts (e : ql) : list ql :=
  match e with
  | BinOpNode lhs AND rhs => conjuncts lhs ++ [rhs]
  | _ => [e]
  end.

(** A comparison of a path with a value by one of the four argument
    operators. *)
Definition is_comparison (e : ql) : Prop :=
  exists path op value,
    e = BinOpNode path op value
    /\ (op = EQ \/ op = NE \/ op = IN \/ op = NOT_IN).

(** ** The variable environment *)

(** From one translator state to a later one: the fragment table is the
    same, every binding is still there with the same value, and a flag
    that was raised is still raised. *)
Definition env_grows (self self' : translator) : Prop :=
  _fragments self' = _fragments self
  /\ forall name val crit,
       _vars self !! name = Some (val, crit) ->
       exists crit',
         _vars self' !! name = Some (val, crit')
         /\ (crit = true -> crit' = true).

(** A computation that, when it returns, relates the state it started
    from to the state it leaves by [R]. *)
Definition respects (R : translator -> translator -> Prop) {A} (m : M A)
  : Prop :=
  forall self a self', m self = Ok (a, self') -> R self self'.

(** From one translator state to a later one: nothing has changed but the
    record of reads, which has grown by reads for argument values. *)
Definition only_arg_reads (self self' : translator) : Prop :=
  _vars self' = _vars self
  /\ _fragments self' = _fragments self
  /\ exists names, reads self' = reads self ++ List.map ArgRead names.

(** The decoded default of a declaration, [None] when it has none. *)
Definition default_value (decl : variable_definition) : pyval :=
  match decl_value decl with
  | None => PyNone
  | Some default => topython default
  end.

(** A value that a declared type lets through: [None] for a nullable
    type, and otherwise a value, or for a list type a list of values,
    accepted by the schema type of the declared scalar name. *)
Definition conforms (ty : gqltype) (v : pyval) : bool :=
  match v with
  | PyNone => type_nullable ty
  | _ =>
      match type_names_lookup (scalar_name ty) with
      | Ok base_t =>
          if type_list ty then
            match v with
            | PyList items => forallb (accepted_by base_t) items
            | _ => false
            end
          else accepted_by base_t v
      | Raise _ => false
      end
  end.

(** The state after seeding the default of a declaration. *)
Definition seeded (decl : variable_definition) (self : translator)
  : translator :=
  match _vars self !! decl_name decl with
  | Some _ => self
  | None =>
      {| _fragments := _fragments self;
         _vars := <[decl_name decl := (default_value decl, false)]>
                    (_vars self);
         reads := reads self |}
  end.

(** ** Selections *)

(** A selection set of fields only, with no arguments and no directives,
    at every level. *)
Fixpoint plain (sel : selection) : bool :=
  match sel with
  | Field _ [] [] None => true
  | Field _ [] [] (Some selections) => forallb plain selections
  | _ => false
  end.

(** How deep the selection sets of a selection nest. *)
Fixpoint height (sel : selection) : nat :=
  match sel with
  | Field _ _ _ (Some selections) =>
      S (list_max (List.map height selections))
  | InlineFragment _ _ selections =>
      S (list_max (List.map height selections))
  | _ => O
  end.

(** The shape entry of a plain field: the link of its name, no filter, and
    the entries of its own selections. *)
Fixpoint shape_of (sel : selection) : ql :=
  match sel with
  | Field name _ _ (Some selections) =>
      SelectPathSpecNode (link_step name) None (List.map shape_of selections)
  | Field name _ _ None => SelectPathSpecNode (link_step name) None []
  | InlineFragment _ _ _ | FragmentSpread _ _ =>
      SelectPathSpecNode (link_step "") None []
  end.

(** ** Operations of a document *)

Fixpoint operations (gqltree : document) : list operation_definition :=
  match gqltree with
  | [] => []
  | DFragment _ :: rest => operations rest
  | DOperation o :: rest => o :: operations rest
  end.

(** One operation translated on its own: by a translator that holds the
    fragment table of the document and nothing else. *)
Definition alone {T} (schema : Schema T) (depth : nat) (gqltree : document)
           (variables : gmap string pyval) (o : operation_definition)
  : result (option ql * list (string * pyval)) :=
  outcome (translate_operation schema depth variables o
             {| _fragments := fragments_of gqltree; _vars := ∅;
                reads := [] |}).

(** The forest built from the results of the operations, taken in order:
    a later operation of the same name replaces an earlier one, and the
    first failure is the failure of the whole. *)
Fixpoint collect
         (results : list (option string
                          * result (option ql * list (string * pyval))))
         (acc : forest) : result forest :=
  match results with
  | [] => Ok acc
  | (name, Ok r) :: rest => collect rest (<[name := r]> acc)
  | (_, Raise e) :: _ => Raise e
  end.

(** The operations of a document with what each gives when translated on
    its own. *)
Definition results_alone {T} (schema : Schema T) (depth : nat)
           (gqltree : document) (variables : gmap string pyval)
  : list (option string * result (option ql * list (string * pyval))) :=
  List.map (fun o => (op_name o, alone schema depth gqltree variables o))
           (operations gqltree).

(** ** The recursion bound *)

(** [m'] does whatever [m] does, wherever [m] does not run into the
    recursion bound. *)
Definition below {A} (m m' : M A) : Prop :=
  forall self r, m self = r -> r <> Raise RecursionError -> m' self = r.

(** ** Conditions that are not Booleans *)

(** What evaluating a conditional directive raises when its condition is
    not a Boolean: [IndexError] without an [if] argument, [KeyError] for an
    unbound variable, and the validation error otherwise. *)
Definition condition_error (vars : gmap string (pyval * bool))
           (d : directive) : exn :=
  match directive_if d with
  | Raise e => e
  | Ok (Var name) =>
      match vars !! name with
      | None => KeyError
      | Some _ => not_boolean (directive_name d)
      end
  | Ok _ => not_boolean (directive_name d)
  end.

(** ** Filters of nested fields *)

(** A comparison whose path starts at [root] and follows [links], then
    some further links. *)
Definition anchored (root : string) (links : list string) (e : ql) : Prop :=
  exists parts op value,
    e = BinOpNode
          (PathNode (PathStepNode root
                     :: List.map link_step (links ++ parts)) [])
          op value.

(** * Properties *)

(** ** Value validation against the coercion table *)

Lemma not_of_type_mentions val base_t name :
  mentions (not_of_type val base_t name) name val base_t.
Proof.
  eexists; split; [reflexivity|].
  cbn; intuition.
Qed.

Lemma coercion_native x base_t :
  exists classes,
    PY_COERCION_MAP (type_of (native_value x)) = Some classes
    /\ s_types.issubclass base_t classes = accepts x base_t.
Proof.
  destruct x; cbn; eexists; (split; [reflexivity|]);
    destruct base_t; reflexivity.
Qed.

Lemma validate_each_native name base_t xs :
  match validate_each name base_t (List.map native_value xs) with
  | Ok _ => forallb (fun x => accepts x base_t) xs = true
  | Raise e =>
      exists pre x post,
        xs = pre ++ x :: post
        /\ forallb (fun x => accepts x base_t) pre = true
        /\ accepts x base_t = false
        /\ e = not_of_type (native_value x) base_t name
  end.
Proof.
  induction xs as [|x xs IH]; [reflexivity|].
  cbn [List.map validate_each forallb].
  destruct (coercion_native x base_t) as (classes & -> & ->).
  destruct (accepts x base_t) eqn:Hx.
  - destruct (validate_each name base_t (List.map native_value xs)).
    + exact IH.
    + destruct IH as (pre & y & post & -> & Hpre & Hy & ->).
      exists (x :: pre), y, post. cbn. rewrite Hx, Hpre. auto.
  - exists [], x, xs. auto.
Qed.

(** ** The monad *)

Lemma bind_ok {A B} (m : M A) (k : A -> M B) self a self' :
  m self = Ok (a, self') -> bind m k self = k a self'.
Proof. unfold bind. intros ->. reflexivity. Qed.

Lemma bind_raise {A B} (m : M A) (k : A -> M B) self e :
  m self = Raise e -> bind m k self = Raise e.
Proof. unfold bind. intros ->. reflexivity. Qed.

Lemma bind_inv {A B} (m : M A) (k : A -> M B) self b self2 :
  bind m k self = Ok (b, self2) ->
  exists a self1, m self = Ok (a, self1) /\ k a self1 = Ok (b, self2).
Proof.
  unfold bind. destruct (m self) as [[a self1]|e]; [|discriminate].
  intros H. exists a, self1. auto.
Qed.

Lemma lift_inv {A} (r : result A) self a self' :
  lift r self = Ok (a, self') -> r = Ok a /\ self' = self.
Proof.
  unfold lift. destruct r; [|discriminate].
  intros H. injection H as -> ->. auto.
Qed.

Lemma ret_inv {A} (x a : A) self self' :
  ret x self = Ok (a, self') -> a = x /\ self' = self.
Proof. unfold ret. intros H. injection H as -> ->. auto. Qed.

(** ** Null filter arguments *)

Lemma process_argument_null {T} (schema : Schema T) prefix arg self :
  decoded_null arg self ->
  exists value self',
    process_literal (arg_value arg) = Ok value
    /\ process_argument schema (Ok prefix) arg self
       = Ok ((arg_path prefix arg, (arg_op (arg_name arg)).1, value), self')
    /\ _vars self' = _vars self
    /\ _fragments self' = _fragments self.
Proof.
  unfold process_argument, arg_path.
  destruct (arg_op (arg_name arg)) as [op name_parts]. cbn [fst snd].
  intros [Hlit | (name & crit & Hvar & Hbound)].
  - rewrite Hlit. exists (ConstantNode PyNone None), self.
    repeat split; reflexivity.
  - rewrite Hvar. cbn [process_literal].
    exists (ConstantNode PyNone (Some (tail1 name))).
    unfold bind at 1. cbn [lift].
    unfold bind at 1. cbn [lift].
    unfold check_value_of. rewrite Hvar. cbn [literal_value].
    destruct (truthy (Some (tail1 name))).
    + eexists. split; [reflexivity|].
      unfold bind at 1. unfold read_arg_var. rewrite Hbound.
      cbn. repeat split; reflexivity.
    + exists self. repeat split; reflexivity.
Qed.

(** C10. A filter argument whose decoded value is null (the null literal,
    or a variable currently bound to [None]) is never validated: whatever
    the schema, handling it raises nothing, leaves the variables as they
    are, and its triple (path, operator, coerced value) heads the list of
    comparisons exactly as for any other argument, the remaining arguments
    being processed after it. *)
Theorem null_argument_not_validated {T} (schema : Schema T)
        (prefix : list ql) (arg : argument) (rest : list argument)
        (self : translator) :
  decoded_null arg self ->
  exists value self',
    process_literal (arg_value arg) = Ok value
    /\ process_argument schema (Ok prefix) arg self
       = Ok ((arg_path prefix arg, (arg_op (arg_name arg)).1, value), self')
    /\ _vars self' = _vars self
    /\ process_arguments schema (Ok prefix) (arg :: rest) self
       = match process_arguments schema (Ok prefix) rest self' with
         | Ok (xs, s) =>
             Ok ((arg_path prefix arg, (arg_op (arg_name arg)).1, value) :: xs,
                 s)
         | Raise e => Raise e
         end.
Proof.
  intros Hnull.
  destruct (process_argument_null schema prefix arg self Hnull)
    as (value & self' & Hlit & Hstep & Hvars & _).
  exists value, self'. repeat split; auto.
  cbn [process_arguments]. rewrite (bind_ok _ _ _ _ _ Hstep).
  unfold bind, ret.
  destruct (process_arguments schema (Ok prefix) rest self') as [[xs s]|e];
    reflexivity.
Qed.

Lemma null_argument_not_validated_witness :
  exists value self',
    process_literal (Var "$name") = Ok value
    /\ process_argument Sample.schema (Ok [PathStepNode "User"])
         (Argument "age__in" (Var "$name"))
         {| _fragments := ∅; _vars := {[ "$name" := (PyNone, false) ]};
            reads := [] |}
       = Ok ((PathNode [PathStepNode "User"; link_step "age"] [], IN, value),
             self').
Proof.
  destruct (null_argument_not_validated Sample.schema [PathStepNode "User"]
              (Argument "age__in" (Var "$name")) []
              {| _fragments := ∅; _vars := {[ "$name" := (PyNone, false) ]};
                 reads := [] |})
    as (value & self' & Hlit & Hstep & _).
  - right. exists "$name", false. split; reflexivity.
  - exists value, self'. split; [exact Hlit|exact Hstep].
Defined.

(** ** The union of the root selections *)

Lemma definition_loop_selqueries {T} (schema : Schema T) depth module
      selections :
  forall query self,
    definition_loop schema depth module query selections self
    = match selqueries schema depth module selections self with
      | Ok (qs, self') => Ok (accumulate query qs, self')
      | Raise e => Raise e
      end.
Proof.
  induction selections as [|selset rest IH]; intros query self.
  - destruct query; reflexivity.
  - cbn [definition_loop selqueries].
    destruct (selquery_of schema depth module selset self) as [[q s]|e]
      eqn:Hq.
    + rewrite !(bind_ok _ _ _ _ _ Hq), IH. unfold bind, ret.
      destruct (selqueries schema depth module rest s) as [[qs s']|e];
        [|reflexivity].
      destruct query; reflexivity.
    + rewrite !(bind_raise _ _ _ _ Hq). reflexivity.
Qed.

(** C7. The tree of a query operation is the union, nested to the left
    and in the order of the selection set, of the select queries built for
    its root selections; with two selections A then B, the tree is a union
    node whose left operand is the select query of A and whose right operand
    is the select query of B. *)
Theorem union_preserves_selection_order {T} (schema : Schema T)
        (depth : nat) (definition : operation_definition)
        (self self' : translator) (query : option ql) :
  process_definition schema depth definition self = Ok (query, self') ->
  exists module self0 queries,
    populate_variable_defaults (op_variables definition) self = Ok (tt, self0)
    /\ get_module (op_directives definition) = Ok module
    /\ selqueries schema depth module (op_selections definition) self0
       = Ok (queries, self')
    /\ query = union_all queries
    /\ (forall qa qb,
          queries = [qa; qb] ->
          query = Some (SelectQueryNode [] [] None (Some UNION)
                                        (Some qa) (Some qb)))
    /\ (forall qa qb qc,
          queries = [qa; qb; qc] ->
          query = Some (union_node (union_node qa qb) qc)).
Proof.
  unfold process_definition.
  destruct (is_query (op_type definition)); [|discriminate].
  intros H.
  apply bind_inv in H as ([] & self0 & Hpop & H).
  apply bind_inv in H as (module & s1 & Hmod & H).
  apply lift_inv in Hmod as [Hmod ->].
  rewrite definition_loop_selqueries in H.
  destruct (selqueries schema depth module (op_selections definition) self0)
    as [[qs s]|e] eqn:Hqs; [|discriminate].
  injection H as <- <-.
  exists module, self0, qs. cbn [accumulate].
  repeat split; auto.
  - intros qa qb ->. reflexivity.
  - intros qa qb qc ->. reflexivity.
Qed.

Lemma union_preserves_selection_order_witness :
  let A := Field "User" [] [] (Some [Sample.field "name"]) in
  let B := Field "Group" [] [] (Some [Sample.field "name"]) in
  exists qa qb,
    selquery_of Sample.schema 2 (AVal PyNone) A Sample.new
    = Ok (qa, Sample.new)
    /\ selquery_of Sample.schema 2 (AVal PyNone) B Sample.new
       = Ok (qb, Sample.new)
    /\ outcome (process_definition Sample.schema 2 (Sample.query [A; B])
                  Sample.new)
       = Ok (Some (SelectQueryNode [] [] None (Some UNION)
                                   (Some qa) (Some qb))).
Proof.
  intros A B.
  destruct (process_definition Sample.schema 2 (Sample.query [A; B])
              Sample.new) as [[query self']|e] eqn:Hrun;
    [|vm_compute in Hrun; discriminate Hrun].
  destruct (union_preserves_selection_order Sample.schema 2
              (Sample.query [A; B]) Sample.new self' query Hrun)
    as (module & self0 & queries & Hpop & Hmod & Hqs & Hq & Hpair & _).
  vm_compute in Hpop. injection Hpop as <-.
  vm_compute in Hmod. injection Hmod as <-.
  vm_compute in Hqs. injection Hqs as <- <-.
  eexists _, _. split; [vm_compute; reflexivity|].
  split; [vm_compute; reflexivity|].
  cbn [outcome]. f_equal. apply Hpair. reflexivity.
Defined.

(** ** Variable declarations *)

Lemma populate_app pre post self :
  populate_variable_defaults (pre ++ post) self
  = match populate_variable_defaults pre self with
    | Ok (_, s) => populate_variable_defaults post s
    | Raise e => Raise e
    end.
Proof.
  revert self. induction pre as [|d pre IH]; intros self; [reflexivity|].
  cbn [app populate_variable_defaults]. unfold bind.
  destruct (populate_variable d self) as [[[] s]|e]; [apply IH|reflexivity].
Qed.

Lemma populate_nonnull_default d self :
  type_nullable (decl_type d) = false ->
  decl_value d <> None ->
  populate_variable d self = Raise (nonnull_default (decl_name d)).
Proof.
  intros Hnull Hdef. unfold populate_variable. rewrite Hnull.
  destruct (decl_value d); [reflexivity|congruence].
Qed.

Lemma populate_missing_value d self :
  type_nullable (decl_type d) = false ->
  decl_value d = None ->
  value_after_seeding d self = PyNone ->
  populate_variable d self = Raise (missing_value (decl_name d)).
Proof.
  intros Hnull Hdef. unfold populate_variable, value_after_seeding.
  rewrite Hnull, Hdef. cbn [is_not_none andb negb].
  unfold bind at 1. cbn [get_vars].
  destruct (_vars self !! decl_name d) as [[val crit]|] eqn:Hlook.
  - intros ->. unfold bind at 1. cbn [ret].
    unfold bind at 1. cbn [get_vars]. rewrite Hlook. reflexivity.
  - intros _. unfold bind at 1. cbn [set_var].
    unfold bind at 1. cbn [get_vars _vars].
    rewrite lookup_insert_eq. reflexivity.
Qed.

(** C3 (amended). An operation of a kind other than query is rejected
    with [ValueError] before its variables are looked at.  For a query
    operation the declarations are validated in order and the first failure
    is the one raised, so whenever some declared variable is non-nullable
    and either supplies a default or is null after default seeding, the
    translation raises and yields no tree: the failure of an earlier
    declaration if there is one, and otherwise the validation error of that
    variable, "cannot be non-nullable and have a default" or "is missing a
    value". *)
Theorem declaration_errors {T} (schema : Schema T) (depth : nat)
        (definition : operation_definition) (self : translator) :
  (is_query (op_type definition) = false ->
   process_definition schema depth definition self
   = Raise (unsupported (op_type definition)))
  /\
  (is_query (op_type definition) = true ->
   forall pre d post,
     op_variables definition = pre ++ d :: post ->
     type_nullable (decl_type d) = false ->
     match populate_variable_defaults pre self with
     | Raise e => process_definition schema depth definition self = Raise e
     | Ok (_, s) =>
         (decl_value d <> None ->
          process_definition schema depth definition self
          = Raise (nonnull_default (decl_name d)))
         /\
         (decl_value d = None ->
          value_after_seeding d s = PyNone ->
          process_definition schema depth definition self
          = Raise (missing_value (decl_name d)))
     end).
Proof.
  unfold process_definition. split; intros Hq; rewrite Hq; [reflexivity|].
  intros pre d post Hvars Hnull. rewrite Hvars.
  pose proof (populate_app pre (d :: post) self) as Happ.
  destruct (populate_variable_defaults pre self) as [[[] s]|e].
  - cbn [populate_variable_defaults] in Happ. split.
    + intros Hdef. apply bind_raise. rewrite Happ.
      apply bind_raise, populate_nonnull_default; assumption.
    + intros Hdef Hval. apply bind_raise. rewrite Happ.
      apply bind_raise, populate_missing_value; assumption.
  - apply bind_raise. exact Happ.
Qed.

Lemma declaration_errors_witness :
  let a := VariableDefinition "$a" (NamedType "Int" true) None in
  let x := VariableDefinition "$x" (NamedType "Int" false)
             (Some (ScalarLiteral (PyInt 3))) in
  let y := VariableDefinition "$y" (NamedType "Int" false) None in
  let users := [Field "User" [] [] (Some [Sample.field "name"])] in
  process_definition Sample.schema 2
    (OperationDefinition None (Some "mutation") [a; x] [] users) Sample.new
  = Raise (unsupported (Some "mutation"))
  /\ process_definition Sample.schema 2
       (OperationDefinition None (Some "query") [a; x] [] users) Sample.new
     = Raise (nonnull_default "$x")
  /\ process_definition Sample.schema 2
       (OperationDefinition None None [a; y] [] users) Sample.new
     = Raise (missing_value "$y").
Proof.
  intros a x y users. split; [|split].
  - apply (declaration_errors Sample.schema 2
             (OperationDefinition None (Some "mutation") [a; x] [] users)
             Sample.new).
    reflexivity.
  - apply (proj2 (declaration_errors Sample.schema 2
             (OperationDefinition None (Some "query") [a; x] [] users)
             Sample.new) eq_refl [a] x [] eq_refl eq_refl).
    discriminate.
  - apply (proj2 (declaration_errors Sample.schema 2
             (OperationDefinition None None [a; y] [] users)
             Sample.new) eq_refl [a] y [] eq_refl eq_refl);
      reflexivity.
Defined.

(** C3, as stated, fails: a mutation that declares a non-nullable variable
    with a default is rejected with [ValueError], not with a validation
    error; and in a query an earlier declaration of a type outside the
    built-in scalar names fails first, with [KeyError]. *)
Lemma declaration_errors_counterexample :
  let a := VariableDefinition "$a" (NamedType "Color" true) None in
  let x := VariableDefinition "$x" (NamedType "Int" false)
             (Some (ScalarLiteral (PyInt 3))) in
  let users := [Field "User" [] [] (Some [Sample.field "name"])] in
  type_nullable (decl_type x) = false
  /\ decl_value x <> None
  /\ process_definition Sample.schema 2
       (OperationDefinition None (Some "mutation") [x] [] users) Sample.new
     = Raise (ValueError [Text "unsupported definition type: ";
                          Repr (PyStr "mutation")])
  /\ process_definition Sample.schema 2
       (OperationDefinition None (Some "query") [a; x] [] users)
       {| _fragments := ∅; _vars := {[ "$a" := (PyStr "red", false) ]};
          reads := [] |}
     = Raise KeyError.
Proof.
  intros a x users.
  split; [reflexivity|]. split; [discriminate|].
  split; vm_compute; reflexivity.
Qed.

(** ** Fragments *)

Lemma validate_fragment_type_related {T} (schema : Schema T) base name t ds
      m ft bt :
  get_module ds = Ok m ->
  get schema (KQual m t) = Some ft ->
  base_type schema base = Ok bt ->
  validate_fragment_type schema base name (Some t) ds
  = if related schema bt ft then Ok tt else Raise (incompatible schema name bt).
Proof.
  intros Hm Hft Hbt. unfold validate_fragment_type, base_type in *.
  rewrite Hm. cbn [rbind]. rewrite Hft.
  destruct base as [|root steps]; [discriminate|].
  destruct (get schema (KName root)) as [t0|]; [|discriminate].
  rewrite Hbt. cbn [rbind]. unfold related.
  destruct (issubclass schema bt ft), (issubclass schema ft bt); reflexivity.
Qed.

(** C5 (the code at the failing input). An inline fragment that declares a
    type unrelated to the type of the base path does not get the
    incompatibility error: the branch that would build its message starts
    by reading [frag.name] (line 274), an attribute an inline fragment does
    not have, so [AttributeError] is raised instead, and
    [query { User { ... on Group { name } } }] is not translated.  The same
    check on a spread of a named fragment raises the validation error, whose
    message names the fragment and the type of the base path; and an inline
    fragment on a related type is spliced next to its sibling. *)
Theorem unrelated_inline_fragment_raises :
  (forall T (schema : Schema T) rec base t ds m ft bt sels self,
     get_module ds = Ok m ->
     get schema (KQual m t) = Some ft ->
     base_type schema base = Ok bt ->
     related schema bt ft = false ->
     process_inline_fragment schema rec base (Some t) ds sels self
     = Raise AttributeError)
  /\ outcome (translate Sample.schema 3 inline_document ∅ Sample.new)
     = Raise AttributeError
  /\ outcome (translate Sample.schema 3 spread_document ∅ Sample.new)
     = Raise (GraphQLValidationError
                [Text "fragment "; Repr (PyStr "F");
                 Text " is incompatible with "; Repr (PyStr "User")])
  /\ outcome (translate Sample.schema 3 related_inline_document ∅
                Sample.new)
     = Ok {[ None :=
               (Some (select_of "User"
                        [SelectPathSpecNode (link_step "age") None [];
                         SelectPathSpecNode (link_step "name") None []]),
                []) ]}.
Proof.
  split; [|repeat split; vm_compute; reflexivity].
  intros T schema rec base t ds m ft bt sels self Hm Hft Hbt Hrel.
  unfold process_inline_fragment. apply bind_raise. unfold lift.
  rewrite (validate_fragment_type_related schema base None t ds m ft bt
             Hm Hft Hbt), Hrel.
  reflexivity.
Qed.

Lemma unrelated_inline_fragment_raises_witness :
  process_inline_fragment Sample.schema (process_pathspec Sample.schema 1)
    ["User"] (Some "Group") [] [Sample.field "name"] Sample.new
  = Raise AttributeError.
Proof.
  apply (proj1 unrelated_inline_fragment_raises Sample.ty Sample.schema
           (process_pathspec Sample.schema 1) ["User"] "Group" []
           (AVal PyNone) Sample.Group Sample.User [Sample.field "name"]
           Sample.new);
    reflexivity.
Defined.

(** X20. A fragment whose declared type is related to the type of the base
    path, in either direction, adds no level of nesting: processing the
    inline fragment, or the spread of the named fragment, is processing its
    selections at the same base path, and in the loop over a selection set
    the entries of an inline fragment are appended to the shape between
    those of the selections before and after it.  When the types are
    unrelated a spread of a named fragment raises a validation error whose
    message names the fragment and the type of the base path. *)
Theorem fragment_splice {T} (schema : Schema T)
        (base : list string) (t : string) (ds : list directive)
        (m : attr_value) (ft bt : T) :
  get_module ds = Ok m ->
  get schema (KQual m t) = Some ft ->
  base_type schema base = Ok bt ->
  (related schema bt ft = true ->
   (forall rec sels self,
      process_inline_fragment schema rec base (Some t) ds sels self
      = rec base sels self)
   /\
   (forall rec name frag self,
      _fragments self !! name = Some frag ->
      frag_on frag = Some t ->
      frag_directives frag = ds ->
      process_spread schema rec base name self
      = rec base (frag_selections frag) self)
   /\
   (forall depth sels rest self,
      process_pathspec schema (S depth) base
        (InlineFragment (Some t) ds sels :: rest) self
      = (included <- should_include ds ;;
         if negb included
         then process_pathspec schema (S depth) base rest
         else
           specs <- process_pathspec schema depth base sels ;;
           more <- process_pathspec schema (S depth) base rest ;;
           ret (specs ++ more)) self))
  /\
  (related schema bt ft = false ->
   forall rec name frag self,
     _fragments self !! name = Some frag ->
     frag_on frag = Some t ->
     frag_directives frag = ds ->
     truthy (Some (frag_name frag)) = true ->
     process_spread schema rec base name self
     = Raise (GraphQLValidationError
                [Text "fragment "; Repr (PyStr (frag_name frag));
                 Text " is incompatible with ";
                 Repr (PyStr (type_name schema bt))])).
Proof.
  intros Hm Hft Hbt.
  pose proof (fun name =>
                validate_fragment_type_related schema base name t ds m ft bt
                  Hm Hft Hbt) as Hval.
  split; intros Hrel; rewrite Hrel in Hval.
  - split; [|split].
    + intros rec sels self. unfold process_inline_fragment.
      unfold bind, lift. rewrite Hval. reflexivity.
    + intros rec name frag self Hfrag Hon Hds.
      unfold process_spread. rewrite Hfrag, Hon, Hds.
      unfold bind, lift. rewrite Hval. reflexivity.
    + intros depth sels rest self.
      cbn [process_pathspec pathspec_loop sel_directives].
      destruct (should_include ds self) as [[included s]|e] eqn:Hinc;
        [|rewrite !(bind_raise _ _ _ _ Hinc); reflexivity].
      rewrite !(bind_ok _ _ _ _ _ Hinc).
      destruct included; cbn [negb]; [|reflexivity].
      unfold process_inline_fragment.
      unfold bind, lift. rewrite Hval. reflexivity.
  - intros rec name frag self Hfrag Hon Hds Hname.
    unfold process_spread. rewrite Hfrag, Hon, Hds.
    apply bind_raise. unfold lift. rewrite Hval.
    unfold incompatible. rewrite Hname. reflexivity.
Qed.

Lemma fragment_splice_witness :
  process_inline_fragment Sample.schema
    (process_pathspec Sample.schema 1) ["User"] (Some "NamedObject") []
    [Sample.field "name"] Sample.new
  = process_pathspec Sample.schema 1 ["User"] [Sample.field "name"]
      Sample.new.
Proof.
  apply (proj1 (proj1 (fragment_splice Sample.schema ["User"]
                         "NamedObject" [] (AVal PyNone) Sample.NamedObject
                         Sample.User eq_refl eq_refl eq_refl) eq_refl)).
Defined.

(** ** Repeated calls *)

Lemma translate_operation_fragments {T} (schema : Schema T) depth variables
      definition self1 self2 :
  _fragments self1 = _fragments self2 ->
  translate_operation schema depth variables definition self1
  = translate_operation schema depth variables definition self2.
Proof.
  intros H. unfold translate_operation, bind, set_vars.
  rewrite H. reflexivity.
Qed.

Lemma translate_loop_fragments {T} (schema : Schema T) depth variables
      definitions :
  forall result self1 self2,
    _fragments self1 = _fragments self2 ->
    outcome (translate_loop schema depth variables definitions result self1)
    = outcome (translate_loop schema depth variables definitions result self2).
Proof.
  induction definitions as [|[f|o] rest IH]; intros result self1 self2 H.
  - reflexivity.
  - cbn [translate_loop]. apply IH, H.
  - cbn [translate_loop]. unfold bind.
    rewrite (translate_operation_fragments schema depth variables o
               self1 self2 H).
    reflexivity.
Qed.

(** ** Critical variables *)














Section Preservation.

Context {T : Type} (schema : Schema T).








End Preservation.






#[local] Instance name_le_transitive : Transitive name_le.
Proof. intros x y z. unfold name_le. apply transitivity. Qed.

#[local] Instance name_le_total : Total name_le.
Proof. intros x y. unfold name_le. apply total, _. Qed.






(** ** Strings *)

Lemma app_cons c s1 s2 : String c s1 +:+ s2 = String c (s1 +:+ s2).
Proof. reflexivity. Qed.

Lemma app_empty_r s : s +:+ "" = s.
Proof. induction s as [|c s IH]; [reflexivity|]. rewrite app_cons, IH. reflexivity. Qed.

Lemma app_assoc' s1 s2 s3 : (s1 +:+ s2) +:+ s3 = s1 +:+ (s2 +:+ s3).
Proof.
  induction s1 as [|c s1 IH]; [reflexivity|].
  rewrite !app_cons, IH. reflexivity.
Qed.

Lemma length_app s1 s2 :
  String.length (s1 +:+ s2) = (String.length s1 + String.length s2)%nat.
Proof.
  induction s1 as [|c s1 IH]; [reflexivity|].
  rewrite app_cons. cbn [String.length]. rewrite IH. reflexivity.
Qed.

Lemma substring_0_all s m :
  (String.length s <= m)%nat -> String.substring 0 m s = s.
Proof.
  revert m. induction s as [|c s IH]; intros [|m] H; cbn in *;
    try reflexivity; [lia|].
  rewrite IH by lia. reflexivity.
Qed.

Lemma substring_app_skip s1 s2 m :
  String.substring (String.length s1) m (s1 +:+ s2) = String.substring 0 m s2.
Proof.
  induction s1 as [|c s1 IH]; [reflexivity|].
  rewrite app_cons. cbn [String.length String.substring]. exact IH.
Qed.

Lemma substring_app_take s1 s2 :
  String.substring 0 (String.length s1) (s1 +:+ s2) = s1.
Proof.
  induction s1 as [|c s1 IH]; [destruct s2; reflexivity|].
  rewrite app_cons. cbn [String.length String.substring]. rewrite IH.
  reflexivity.
Qed.

Lemma substring_split s n :
  (n <= String.length s)%nat ->
  String.substring 0 n s +:+ String.substring n (String.length s - n) s = s.
Proof.
  revert n. induction s as [|c s IH]; intros [|n] H; cbn in H.
  - reflexivity.
  - lia.
  - cbn [String.substring]. change ("" +:+ ?x) with x.
    rewrite Nat.sub_0_r. apply (substring_0_all (String c s)). lia.
  - cbn [String.substring String.length Nat.sub]. rewrite app_cons.
    rewrite IH by lia. reflexivity.
Qed.

Lemma last4_app stem sfx :
  String.length sfx = 4%nat -> last4 (stem +:+ sfx) = sfx.
Proof.
  intros H. unfold last4. rewrite length_app, H.
  replace (String.length stem + 4 - 4)%nat with (String.length stem) by lia.
  rewrite substring_app_skip. apply substring_0_all. lia.
Qed.

Lemma drop_last4_app stem sfx :
  String.length sfx = 4%nat -> drop_last4 (stem +:+ sfx) = stem.
Proof.
  intros H. unfold drop_last4. rewrite length_app, H.
  replace (String.length stem + 4 - 4)%nat with (String.length stem) by lia.
  apply substring_app_take.
Qed.

Lemma last4_split name :
  String.length (last4 name) = 4%nat ->
  name = drop_last4 name +:+ last4 name.
Proof.
  unfold last4, drop_last4. intros H.
  destruct (le_lt_dec 4 (String.length name)) as [Hle|Hlt].
  - pose proof (substring_split name (String.length name - 4)) as Hs.
    replace (String.length name - (String.length name - 4))%nat with 4%nat
      in Hs by lia.
    symmetry. apply Hs. lia.
  - replace (String.length name - 4)%nat with 0%nat in H by lia.
    rewrite substring_0_all in H by lia. lia.
Qed.

Lemma suffix_length sfx op :
  In (sfx, op) suffixes -> String.length sfx = 4%nat.
Proof.
  intros [H|[H|[H|[H|[]]]]]; injection H as <- _; reflexivity.
Qed.

Lemma ops_map_suffixes sfx op :
  GQL_OPS_MAP sfx = Some op <-> In (sfx, op) suffixes.
Proof.
  unfold GQL_OPS_MAP, suffixes. split.
  - destruct (String.eqb_spec sfx "__eq") as [->|?];
      [intros H; injection H as <-; cbn; tauto|].
    destruct (String.eqb_spec sfx "__ne") as [->|?];
      [intros H; injection H as <-; cbn; tauto|].
    destruct (String.eqb_spec sfx "__in") as [->|?];
      [intros H; injection H as <-; cbn; tauto|].
    destruct (String.eqb_spec sfx "__ni") as [->|?];
      [intros H; injection H as <-; cbn; tauto|].
    intros H; discriminate H.
  - intros [H|[H|[H|[H|[]]]]]; injection H as <- <-; reflexivity.
Qed.

Lemma arg_op_resolves name :
  resolves name (arg_op name).1 (arg_op name).2.
Proof.
  unfold arg_op. destruct (GQL_OPS_MAP (last4 name)) as [op|] eqn:Hop.
  - cbn [fst snd]. apply ops_map_suffixes in Hop.
    apply (resolves_suffix name _ (last4 name)); [exact Hop|].
    apply last4_split, (suffix_length _ op), Hop.
  - cbn [fst snd]. apply resolves_plain. intros stem sfx op Hin ->.
    rewrite (last4_app _ _ (suffix_length _ _ Hin)) in Hop.
    apply ops_map_suffixes in Hin. congruence.
Qed.

Lemma rev_app_spec s1 s2 : String.rev_app s1 s2 = String.rev s1 +:+ s2.
Proof.
  unfold String.rev. revert s2.
  induction s1 as [|c s1 IH]; intros s2; [reflexivity|].
  cbn [String.rev_app]. rewrite IH, (IH (String c "")), app_assoc'.
  reflexivity.
Qed.

Lemma rev_cons c s : String.rev (String c s) = String.rev s +:+ String c "".
Proof. unfold String.rev at 1. cbn [String.rev_app]. apply rev_app_spec. Qed.

Lemma split_go_nonempty cur s : split_go cur s <> [].
Proof.
  revert cur. induction s as [|c s IH]; intros cur; [discriminate|].
  cbn [split_go]. destruct s as [|c' s']; [discriminate|].
  destruct (Ascii.eqb c "_" && Ascii.eqb c' "_")%bool; [discriminate|].
  apply IH.
Qed.

Lemma concat_cons sep x l :
  l <> [] -> String.concat sep (x :: l) = x +:+ sep +:+ String.concat sep l.
Proof. destruct l; [congruence|reflexivity]. Qed.

Lemma split_go_step cur c c' rest :
  split_go cur (String c (String c' rest))
  = if (Ascii.eqb c "_" && Ascii.eqb c' "_")%bool
    then String.rev cur :: split_go "" rest
    else split_go (String c cur) (String c' rest).
Proof. reflexivity. Qed.

Lemma concat_split_go n :
  forall s cur,
    (String.length s <= n)%nat ->
    String.concat "__" (split_go cur s) = String.rev cur +:+ s.
Proof.
  induction n as [|n IH]; intros s cur Hlen.
  - destruct s; [|cbn in Hlen; lia]. cbn. symmetry. apply app_empty_r.
  - destruct s as [|c [|c' rest]].
    + cbn. symmetry. apply app_empty_r.
    + cbn [split_go String.concat]. apply rev_cons.
    + rewrite split_go_step. cbn [String.length] in Hlen.
      destruct (Ascii.eqb c "_" && Ascii.eqb c' "_")%bool eqn:Hsep.
      * apply andb_prop in Hsep as [Hc Hc'].
        apply Ascii.eqb_eq in Hc, Hc'. subst c c'.
        rewrite concat_cons by apply split_go_nonempty.
        rewrite (IH rest "") by lia. reflexivity.
      * rewrite (IH (String c' rest) (String c cur)) by (cbn; lia).
        rewrite rev_cons, app_assoc'. reflexivity.
Qed.

Lemma concat_split_dunder s : String.concat "__" (split_dunder s) = s.
Proof. apply (concat_split_go (String.length s)). lia. Qed.

Lemma has_dunder_cons a b rest :
  has_dunder (String a (String b rest))
  = (Ascii.eqb a "_" && Ascii.eqb b "_" || has_dunder (String b rest))%bool.
Proof. reflexivity. Qed.

Lemma has_dunder_prefix a b :
  has_dunder (a +:+ b) = false -> has_dunder a = false.
Proof.
  induction a as [|x a IH]; [reflexivity|].
  destruct a as [|y a]; [reflexivity|].
  rewrite !app_cons, !has_dunder_cons. intros H.
  apply orb_false_elim in H as [-> H]. rewrite app_cons in IH.
  rewrite (IH H). reflexivity.
Qed.

Lemma has_dunder_snoc t c c' :
  has_dunder ((t +:+ String c "") +:+ String c' "")
  = (has_dunder (t +:+ String c "")
     || Ascii.eqb c "_" && Ascii.eqb c' "_")%bool.
Proof.
  induction t as [|x t IH].
  - change (has_dunder (String c (String c' ""))
            = (has_dunder (String c "")
               || Ascii.eqb c "_" && Ascii.eqb c' "_")%bool).
    rewrite has_dunder_cons. cbn [has_dunder].
    rewrite orb_false_r. reflexivity.
  - destruct t as [|y t].
    + change (has_dunder (String x (String c (String c' "")))
              = (has_dunder (String x (String c ""))
                 || Ascii.eqb c "_" && Ascii.eqb c' "_")%bool).
      rewrite !has_dunder_cons. cbn [has_dunder].
      rewrite !orb_false_r. reflexivity.
    + rewrite !app_cons in *. rewrite !has_dunder_cons, IH.
      rewrite orb_assoc. reflexivity.
Qed.

Lemma split_go_parts n :
  forall s cur,
    (String.length s <= n)%nat ->
    has_dunder (String.rev cur +:+ first_char s) = false ->
    Forall (fun part => has_dunder part = false) (split_go cur s).
Proof.
  induction n as [|n IH]; intros s cur Hlen Hinv.
  - destruct s; [|cbn in Hlen; lia].
    constructor; [|constructor]. rewrite app_empty_r in Hinv. exact Hinv.
  - destruct s as [|c [|c' rest]].
    + constructor; [|constructor]. rewrite app_empty_r in Hinv. exact Hinv.
    + constructor; [|constructor]. rewrite rev_cons. exact Hinv.
    + rewrite split_go_step. cbn [String.length] in Hlen.
      cbn [first_char] in Hinv.
      destruct (Ascii.eqb c "_" && Ascii.eqb c' "_")%bool eqn:Hsep.
      * constructor; [eapply has_dunder_prefix, Hinv|].
        apply IH; [lia|]. destruct rest; reflexivity.
      * apply IH; [cbn; lia|]. cbn [first_char].
        rewrite rev_cons, has_dunder_snoc, Hinv, Hsep. reflexivity.
Qed.

Lemma split_go_whole s :
  forall cur,
    has_dunder s = false -> split_go cur s = [String.rev cur +:+ s].
Proof.
  induction s as [|c s IH]; intros cur H.
  - cbn. rewrite app_empty_r. reflexivity.
  - destruct s as [|c' rest].
    + cbn [split_go]. rewrite rev_cons. reflexivity.
    + rewrite split_go_step. rewrite has_dunder_cons in H.
      apply orb_false_elim in H as [-> H].
      rewrite (IH (String c cur) H), rev_cons, app_assoc'. reflexivity.
Qed.

Lemma splits_eq s s' parts : s = s' -> splits s parts -> splits s' parts.
Proof. intros <- H. exact H. Qed.

(** What [split_go] returns are the parts in the sense of [splits]. *)
Lemma split_go_splits n :
  forall s cur,
    (String.length s <= n)%nat ->
    has_dunder (String.rev cur +:+ first_char s) = false ->
    splits (String.rev cur +:+ s) (split_go cur s).
Proof.
  induction n as [|n IH]; intros s cur Hlen Hinv.
  - destruct s; [|cbn in Hlen; lia].
    cbn [split_go first_char] in *. rewrite app_empty_r in *.
    apply splits_whole, Hinv.
  - destruct s as [|c [|c' rest]].
    + cbn [split_go first_char] in *. rewrite app_empty_r in *.
      apply splits_whole, Hinv.
    + cbn [split_go first_char] in *. rewrite rev_cons.
      apply splits_whole, Hinv.
    + rewrite split_go_step. cbn [String.length] in Hlen.
      cbn [first_char] in Hinv.
      destruct (Ascii.eqb c "_" && Ascii.eqb c' "_")%bool eqn:Hsep.
      * apply andb_prop in Hsep as [Hc Hc'].
        apply Ascii.eqb_eq in Hc, Hc'. subst c c'.
        change (String "_" (String "_" rest)) with ("__" +:+ rest).
        apply splits_at; [exact Hinv|].
        apply (splits_eq (String.rev "" +:+ rest)); [reflexivity|].
        apply IH; [lia|]. destruct rest; reflexivity.
      * apply (splits_eq (String.rev (String c cur) +:+ String c' rest)).
        { rewrite rev_cons, app_assoc'. reflexivity. }
        apply IH; [cbn; lia|]. cbn [first_char].
        rewrite rev_cons, has_dunder_snoc, Hinv, Hsep. reflexivity.
Qed.

Lemma split_dunder_splits s : splits s (split_dunder s).
Proof.
  apply (splits_eq (String.rev "" +:+ s)); [reflexivity|].
  apply (split_go_splits (String.length s)); [lia|].
  destruct s; reflexivity.
Qed.

Lemma split_go_at part :
  forall cur rest,
    has_dunder (part +:+ "_") = false ->
    split_go cur (part +:+ "__" +:+ rest)
    = (String.rev cur +:+ part) :: split_go "" rest.
Proof.
  induction part as [|c part IH]; intros cur rest H.
  - change ("" +:+ "__" +:+ rest) with (String "_" (String "_" rest)).
    rewrite split_go_step. cbn [Ascii.eqb Bool.eqb andb].
    rewrite app_empty_r. reflexivity.
  - destruct part as [|c' part].
    + change (String c "" +:+ "__" +:+ rest)
        with (String c (String "_" (String "_" rest))).
      change (String c "" +:+ "_") with (String c (String "_" "")) in H.
      rewrite has_dunder_cons in H. apply orb_false_elim in H as [Hsep _].
      rewrite split_go_step, Hsep, split_go_step.
      cbn [Ascii.eqb Bool.eqb andb]. rewrite rev_cons. reflexivity.
    + change (String c (String c' part) +:+ "__" +:+ rest)
        with (String c (String c' part +:+ "__" +:+ rest)).
      change (String c (String c' part) +:+ "_")
        with (String c (String c' (part +:+ "_"))) in H.
      rewrite has_dunder_cons in H. apply orb_false_elim in H as [Hsep H].
      rewrite app_cons at 1. rewrite split_go_step, Hsep.
      rewrite <- app_cons.
      rewrite (IH (String c cur) rest H), rev_cons, app_assoc'.
      reflexivity.
Qed.

(** The parts in the sense of [splits] are those [split_dunder] returns:
    the relation holds of one list of parts only. *)
Lemma splits_split_dunder s parts : splits s parts -> split_dunder s = parts.
Proof.
  induction 1 as [s H|part rest parts H _ IH].
  - apply (split_go_whole s ""), H.
  - unfold split_dunder. rewrite (split_go_at part "" rest H).
    f_equal. exact IH.
Qed.

(** ** Paths *)

Lemma last_nonempty {A} (x : A) l d d' :
  List.last (x :: l) d = List.last (x :: l) d'.
Proof.
  revert x. induction l as [|y l IH]; intros x; [reflexivity|].
  change (List.last (y :: l) d = List.last (y :: l) d'). apply IH.
Qed.

Lemma resolve_steps_base {T} (schema : Schema T) links :
  forall target last,
    resolve_steps schema target last (List.map link_step links)
    = match resolve_base schema target links with
      | Ok target' => Ok (target', List.last (List.map Some links) last)
      | Raise e => Raise e
      end.
Proof.
  induction links as [|name rest IH]; intros target last; [reflexivity|].
  cbn [List.map resolve_steps resolve_base link_step].
  destruct (resolve_pointer schema target name) as [target'|];
    [|reflexivity].
  rewrite IH. destruct (resolve_base schema target' rest); [|reflexivity].
  f_equal. f_equal. destruct rest; [reflexivity|].
  symmetry. apply (last_nonempty (Some s) (List.map Some rest)).
Qed.

Lemma last_snoc {A} (l : list A) (x d : A) : List.last (l ++ [x]) d = x.
Proof.
  induction l as [|y l IH]; [reflexivity|].
  cbn [app]. destruct (l ++ [x]) eqn:Heq; [destruct l; discriminate Heq|].
  exact IH.
Qed.

(** ** Filter arguments *)

Ltac break_match H :=
  repeat match type of H with
         | context [match ?x with _ => _ end] => destruct x; try discriminate H
         end.

Lemma validate_arg_sequence {T} (schema : Schema T) path v :
  validate_arg schema path v true = Ok tt ->
  v = PyNone \/ exists items, v = PyList items.
Proof.
  destruct v; eauto; intros H; exfalso; unfold validate_arg, rbind in H;
    break_match H.
Qed.

Lemma validate_arg_single {T} (schema : Schema T) path v :
  validate_arg schema path v false = Ok tt ->
  v = PyNone \/ exists x, v = native_value x.
Proof.
  destruct v; eauto.
  - right. exists (NBoolean b). reflexivity.
  - right. exists (NInteger n). reflexivity.
  - right. exists (NReal bits). reflexivity.
  - right. exists (NText s). reflexivity.
  - intros H; exfalso; unfold validate_arg, rbind in H; break_match H.
  - intros H; exfalso; unfold validate_arg, rbind in H; break_match H.
Qed.

Lemma check_value_of_vars arg value self v self' :
  check_value_of arg value self = Ok (v, self') -> _vars self' = _vars self.
Proof.
  unfold check_value_of. intros H.
  destruct value; try discriminate H.
  - destruct (truthy index).
    + destruct (literal_value (arg_value arg)) as [[]| |];
        try discriminate H.
      unfold read_arg_var in H.
      destruct (_vars self !! s) as [[val crit]|]; [|discriminate H].
      injection H as _ <-. reflexivity.
    + apply ret_inv in H as [_ ->]. reflexivity.
  - apply bind_inv in H as (vs & s1 & H1 & H2).
    apply lift_inv in H1 as [_ ->]. apply ret_inv in H2 as [_ ->].
    reflexivity.
Qed.

Lemma process_literal_list value :
  process_literal (ListLiteral value)
  = (elements <~ process_literals value ;; Ok (SequenceNode elements)).
Proof.
  cbn [process_literal]. reflexivity.
Qed.

Lemma element_decoded_value el x v :
  process_literal el = Ok x ->
  element_value x = Ok v ->
  element_decoded el = Some v.
Proof.
  intros Hx Hv. destruct el as [name|els|fields|v0].
  - injection Hx as <-. injection Hv as <-. reflexivity.
  - rewrite process_literal_list in Hx. unfold rbind in Hx.
    destruct (process_literals els); [|discriminate Hx].
    injection Hx as <-. discriminate Hv.
  - discriminate Hx.
  - injection Hx as <-. injection Hv as <-. reflexivity.
Qed.

Lemma elements_decoded_values els :
  forall elements vs,
    process_literals els = Ok elements ->
    element_values elements = Ok vs ->
    elements_decoded els = Some vs.
Proof.
  induction els as [|el rest IH]; intros elements vs Hels Hvs.
  - injection Hels as <-. injection Hvs as <-. reflexivity.
  - cbn [process_literals] in Hels. unfold rbind in Hels.
    destruct (process_literal el) as [x|] eqn:Hx; [|discriminate Hels].
    destruct (process_literals rest) as [xs|] eqn:Hxs; [|discriminate Hels].
    injection Hels as <-.
    cbn [element_values] in Hvs. unfold rbind in Hvs.
    destruct (element_value x) as [v|] eqn:Hv; [|discriminate Hvs].
    destruct (element_values xs) as [vs'|] eqn:Hvs'; [|discriminate Hvs].
    injection Hvs as <-.
    cbn [elements_decoded].
    rewrite (element_decoded_value el x v Hx Hv), (IH xs vs' eq_refl Hvs').
    reflexivity.
Qed.

(** The value handed to [_validate_arg] is the decoded value of the
    argument as read off its literal and the environment. *)
Lemma check_value_decoded arg value self decoded self' :
  process_literal (arg_value arg) = Ok value ->
  check_value_of arg value self = Ok (decoded, self') ->
  decoded_value (_vars self) (arg_value arg) = Some decoded.
Proof.
  intros Hlit Hdec. unfold check_value_of in Hdec.
  destruct (arg_value arg) as [name|els|fields|v].
  - injection Hlit as <-. cbn [literal_value truthy] in Hdec.
    cbn [decoded_value]. destruct (tail1 name).
    + apply ret_inv in Hdec as [-> _]. reflexivity.
    + unfold read_arg_var in Hdec.
      destruct (_vars self !! name) as [[val crit]|]; [|discriminate Hdec].
      injection Hdec as <- _. reflexivity.
  - rewrite process_literal_list in Hlit. unfold rbind in Hlit.
    destruct (process_literals els) as [elements|] eqn:Hels;
      [|discriminate Hlit].
    injection Hlit as <-.
    apply bind_inv in Hdec as (vs & s1 & Hvs & H).
    apply lift_inv in Hvs as [Hvs ->]. apply ret_inv in H as [-> _].
    cbn [decoded_value].
    rewrite (elements_decoded_values els elements vs Hels Hvs).
    reflexivity.
  - discriminate Hlit.
  - injection Hlit as <-. cbn [truthy] in Hdec.
    apply ret_inv in Hdec as [-> _]. reflexivity.
Qed.

Lemma process_argument_rule {T} (schema : Schema T) prefix arg self x self' :
  process_argument schema (Ok prefix) arg self = Ok (x, self') ->
  argument_rule schema prefix self arg x /\ _vars self' = _vars self.
Proof.
  unfold process_argument.
  pose proof (arg_op_resolves (arg_name arg)) as Hres.
  destruct (arg_op (arg_name arg)) as [op stem]. cbn [fst snd] in Hres.
  intros H.
  apply bind_inv in H as (p & s1 & Hp & H).
  apply lift_inv in Hp as [Hp ->]. injection Hp as <-.
  apply bind_inv in H as (value & s1 & Hlit & H).
  apply lift_inv in Hlit as [Hlit ->].
  apply bind_inv in H as (decoded & s1 & Hdec & H).
  apply bind_inv in H as ([] & s2 & Hval & H).
  apply lift_inv in Hval as [Hval ->].
  apply ret_inv in H as [-> ->].
  split; [|eapply check_value_of_vars; eassumption].
  exists stem, (split_dunder stem), decoded.
  split; [exact Hres|].
  split; [apply split_dunder_splits|].
  split; [reflexivity|]. split; [exact Hlit|].
  split; [eapply check_value_decoded; eassumption|].
  split.
  - intros [-> | ->];
      (split; [exact Hval|apply (validate_arg_sequence schema _ _ Hval)]).
  - intros [Hin Hni].
    destruct op; try contradiction;
      (split; [exact Hval|apply (validate_arg_single schema _ _ Hval)]).
Qed.

Lemma argument_rule_vars {T} (schema : Schema T) prefix self1 self2 arg x :
  _vars self1 = _vars self2 ->
  argument_rule schema prefix self1 arg x ->
  argument_rule schema prefix self2 arg x.
Proof.
  intros Hvars. unfold argument_rule. destruct x as [[path op] value].
  intros (stem & parts & decoded & Hres & Hparts & Hpath & Hlit & Hdec
          & Hrest).
  exists stem, parts, decoded.
  split; [exact Hres|]. split; [exact Hparts|]. split; [exact Hpath|].
  split; [exact Hlit|]. split; [rewrite <- Hvars; exact Hdec|exact Hrest].
Qed.

Lemma process_arguments_rule {T} (schema : Schema T) prefix args :
  forall self xs self',
    process_arguments schema (Ok prefix) args self = Ok (xs, self') ->
    Forall2 (argument_rule schema prefix self) args xs
    /\ _vars self' = _vars self.
Proof.
  induction args as [|arg rest IH]; intros self xs self' H.
  - apply ret_inv in H as [-> ->]. split; [constructor|reflexivity].
  - cbn [process_arguments] in H.
    apply bind_inv in H as (x & s1 & Hx & H).
    apply bind_inv in H as (xs' & s2 & Hxs & H).
    apply ret_inv in H as [-> ->].
    apply process_argument_rule in Hx as [Hrule Hvars1].
    apply IH in Hxs as [Hall Hvars2].
    split; [|congruence].
    constructor; [exact Hrule|].
    eapply Forall2_impl; [exact Hall|].
    intros a y. apply argument_rule_vars. exact Hvars1.
Qed.

Lemma join_expressions_conjunction exprs e :
  join_expressions exprs AND = Ok e ->
  exists first others, exprs = first :: others /\ e = conjunction first others.
Proof.
  destruct exprs as [|e0 [|e1 rest]]; intros H; [discriminate H| |];
    injection H as <-; eexists _, _; split; reflexivity.
Qed.

(** C6. The filter built from the arguments of a selection, over the path
    prefix of that selection.  With no argument there is no filter.
    Otherwise every argument contributes, in the order of the arguments, one
    comparison: its operator is the one named by the trailing suffix of the
    argument name ([__eq], [__ne], [__in], [__ni]) and exact equality when
    there is none; the remaining portion is cut at every pair of
    underscores, leftmost first, and its parts are the link steps appended
    to the prefix; the decoded value (a variable resolved through the
    environment, a list literal unwrapped to the values of its elements)
    has been validated as a list for the two membership operators and as a
    single value for the others; and the comparisons are joined by [AND],
    nested to the left. *)
Theorem arguments_become_filter {T} (schema : Schema T) (prefix : list ql)
        (arguments : list argument) (self self' : translator)
        (filter : option ql) :
  where_of schema (Ok prefix) arguments self = Ok (filter, self') ->
  match arguments with
  | [] => filter = None
  | _ :: _ =>
      exists triples first others,
        Forall2 (argument_rule schema prefix self) arguments triples
        /\ List.map (fun '(path, op, value) => BinOpNode path op value)
             triples
           = first :: others
        /\ filter = Some (conjunction first others)
  end.
Proof.
  unfold where_of. destruct arguments as [|arg rest].
  - intros H. apply ret_inv in H as [-> _]. reflexivity.
  - intros H.
    apply bind_inv in H as (triples & s1 & Hargs & H).
    apply bind_inv in H as (e & s2 & Hjoin & H).
    apply lift_inv in Hjoin as [Hjoin ->]. apply ret_inv in H as [-> ->].
    apply process_arguments_rule in Hargs as [Hall _].
    apply join_expressions_conjunction in Hjoin
      as (first & others & Hmap & ->).
    exists triples, first, others. auto.
Qed.

Lemma arguments_become_filter_witness :
  exists filter self' triples first others,
    where_of Sample.schema (Ok [PathStepNode "User"]) nested_arguments
      names_bound
    = Ok (filter, self')
    /\ Forall2 (argument_rule Sample.schema [PathStepNode "User"] names_bound)
         nested_arguments triples
    /\ List.map (fun '(path, op, value) => BinOpNode path op value) triples
       = first :: others
    /\ filter = Some (conjunction first others).
Proof.
  destruct (where_of Sample.schema (Ok [PathStepNode "User"]) nested_arguments
              names_bound) as [[filter self']|e] eqn:Hrun;
    [|vm_compute in Hrun; discriminate Hrun].
  destruct (arguments_become_filter Sample.schema [PathStepNode "User"]
              nested_arguments names_bound self' filter Hrun)
    as (triples & first & others & Hall & Hmap & Hfilter).
  exists filter, self', triples, first, others. auto.
Defined.

(** The filter of the arguments with nested names, computed: each name is
    cut at its double underscores into link steps. *)
Example nested_filter :
  outcome (process_select_where Sample.schema "User" nested_arguments
             names_bound)
  = Ok (Some
          (BinOpNode
             (BinOpNode
                (PathNode [PathStepNode "User"; link_step "profile";
                           link_step "value"] [])
                NE (ConstantNode (PyStr "x") None))
             AND
             (BinOpNode
                (PathNode [PathStepNode "User"; link_step "groups";
                           link_step "settings"; link_step "name"] [])
                IN (ConstantNode PyNone (Some "names"))))).
Proof. vm_compute. reflexivity. Qed.

(** Both callers of [_process_arguments] are instances of [where_of]. *)
Remark process_path_where_prefix {T} (schema : Schema T) root links
       arguments :
  process_path_where schema (root :: links) arguments
  = where_of schema (Ok (PathStepNode root :: List.map link_step links))
      arguments.
Proof. reflexivity. Qed.

Remark process_select_where_prefix {T} (schema : Schema T) name arguments :
  process_select_where schema name arguments
  = where_of schema (Ok [PathStepNode name]) arguments.
Proof. reflexivity. Qed.

(** Building a filter reads variables and marks none: the environment,
    flags included, is what it was. *)
Lemma where_of_vars {T} (schema : Schema T) prefix arguments self filter
      self' :
  where_of schema (Ok prefix) arguments self = Ok (filter, self') ->
  _vars self' = _vars self.
Proof.
  unfold where_of. destruct arguments as [|arg rest]; intros H.
  - apply ret_inv in H as [_ ->]. reflexivity.
  - apply bind_inv in H as (triples & s1 & Hargs & H).
    apply bind_inv in H as (e & s2 & Hjoin & H).
    apply lift_inv in Hjoin as [_ ->]. apply ret_inv in H as [_ ->].
    apply process_arguments_rule in Hargs as [_ Hvars]. exact Hvars.
Qed.

(** The filter of the sample arguments, computed. *)
Example sample_filter :
  outcome (process_select_where Sample.schema "User" sample_arguments
             Sample.new)
  = Ok (Some
          (BinOpNode
             (BinOpNode
                (BinOpNode
                   (PathNode [PathStepNode "User"; link_step "score"] []) IN
                   (SequenceNode [ConstantNode (PyInt 1) None;
                                  ConstantNode (PyInt 2) None]))
                AND
                (BinOpNode
                   (PathNode [PathStepNode "User"; link_step "name"] []) EQ
                   (ConstantNode PyNone None)))
             AND
             (BinOpNode
                (PathNode [PathStepNode "User"; link_step "age"] []) NE
                (ConstantNode (PyInt 3) None)))).
Proof. vm_compute. reflexivity. Qed.

(** ** Value validation: the table, the list shape and the name *)

Lemma resolves_arg_op name op stem :
  resolves name op stem -> arg_op name = (op, stem).
Proof.
  intros H. destruct H as [stem sfx op Hin Heq|Hplain]; unfold arg_op.
  - subst name.
    rewrite (last4_app _ _ (suffix_length _ _ Hin)).
    rewrite (drop_last4_app _ _ (suffix_length _ _ Hin)).
    apply ops_map_suffixes in Hin. rewrite Hin. reflexivity.
  - destruct (GQL_OPS_MAP (last4 name)) as [op'|] eqn:Hop; [|reflexivity].
    exfalso. apply ops_map_suffixes in Hop.
    apply (Hplain (drop_last4 name) (last4 name) op' Hop).
    apply last4_split, (suffix_length _ op'), Hop.
Qed.

(** The validator is handed the last link of the path as the name. *)
Lemma validate_arg_last_link {T} (schema : Schema T) root links last target
      base_t value as_sequence :
  base_type schema (root :: links ++ [last]) = Ok target ->
  get_implementation_type schema target = Some base_t ->
  value <> PyNone ->
  validate_arg schema
    (PathNode (PathStepNode root :: List.map link_step (links ++ [last])) [])
    value as_sequence
  = validate_value last value base_t as_sequence.
Proof.
  intros Hbase Himpl Hvalue. unfold validate_arg, base_type in *.
  destruct (get schema (KName root)) as [t0|]; [|discriminate Hbase].
  rewrite resolve_steps_base, Hbase. cbn [rbind].
  rewrite Himpl, List.map_app. cbn [List.map]. rewrite last_snoc.
  destruct value; try reflexivity. contradiction.
Qed.

(** A declared variable that is bound to a value is validated under its
    own name. *)
Lemma populate_variable_bound decl self val crit base_t :
  decl_value decl = None \/ type_nullable (decl_type decl) = true ->
  _vars self !! decl_name decl = Some (val, crit) ->
  val <> PyNone ->
  type_names_lookup (scalar_name (decl_type decl)) = Ok base_t ->
  populate_variable decl self
  = if type_list (decl_type decl) then
      match val with
      | PyList _ => lift (validate_value (decl_name decl) val base_t true) self
      | _ => Raise (should_be_list "variable" (decl_name decl))
      end
    else lift (validate_value (decl_name decl) val base_t false) self.
Proof.
  intros Hdef Hbound Hval Hty. unfold populate_variable.
  assert ((is_not_none (decl_value decl)
           && negb (type_nullable (decl_type decl)))%bool = false) as ->.
  { destruct Hdef as [-> | ->]; [reflexivity|apply andb_false_r]. }
  unfold bind, get_vars. rewrite Hbound. cbn [ret]. rewrite Hbound, Hty.
  cbn [rbind].
  destruct val; try contradiction;
    destruct (type_list (decl_type decl)); reflexivity.
Qed.

Lemma validate_each_other name base_t value pre post :
  PY_COERCION_MAP (type_of value) = None ->
  forallb (fun x => accepts x base_t) pre = true ->
  validate_each name base_t (List.map native_value pre ++ value :: post)
  = Raise KeyError.
Proof.
  intros Hother. induction pre as [|x pre IH]; intros Hpre.
  - cbn [List.map app validate_each]. rewrite Hother. reflexivity.
  - cbn [forallb] in Hpre. apply andb_prop in Hpre as [Hx Hpre].
    cbn [List.map app validate_each].
    destruct (coercion_native x base_t) as (classes & -> & ->).
    rewrite Hx. apply IH, Hpre.
Qed.

(** C4 (amended). Value validation against the coercion table.  A value
    of one of the four native kinds is accepted exactly when the table
    lists the schema type for its kind (integer: Int, Float, Decimal, UUID;
    text: Str, UUID; real: Float, Decimal; boolean: Bool), as a single value
    where no list is required and as an element of a list where one is; a
    rejected value of these kinds, for a list the first one, raises a
    [GraphQLValidationError] whose message carries the name the validator
    was given, the value and the schema type.  Where a list is required, a
    value that is not a list is rejected whatever its kind, and the message
    carries the name only.  A value of any other kind ([None], a list
    inside a list) is not accepted either, but what is raised is the
    [KeyError] of the table lookup.  The name the validator is given is,
    for a filter argument, the last link of the path the argument name is
    cut into, and for a declared variable its own name. *)
Theorem validate_value_table (name : string) (base_t : s_types.t) :
  (forall x,
     match validate_value name (native_value x) base_t false with
     | Ok _ => accepts x base_t = true
     | Raise e =>
         accepts x base_t = false
         /\ mentions e name (native_value x) base_t
     end)
  /\
  (forall xs,
     match validate_value name (PyList (List.map native_value xs))
                          base_t true with
     | Ok _ => forallb (fun x => accepts x base_t) xs = true
     | Raise e =>
         exists pre x post,
           xs = pre ++ x :: post
           /\ forallb (fun x => accepts x base_t) pre = true
           /\ accepts x base_t = false
           /\ mentions e name (native_value x) base_t
     end)
  /\
  (forall value,
     (forall items, value <> PyList items) ->
     validate_value name value base_t true
     = Raise (should_be_list "argument" name))
  /\
  (forall value,
     PY_COERCION_MAP (type_of value) = None ->
     validate_value name value base_t false = Raise KeyError
     /\ forall pre post,
          forallb (fun x => accepts x base_t) pre = true ->
          validate_value name
            (PyList (List.map native_value pre ++ value :: post)) base_t true
          = Raise KeyError)
  /\
  (forall T (schema : Schema T) root arg op stem links target value,
     resolves (arg_name arg) op stem ->
     splits stem (links ++ [name]) ->
     base_type schema (root :: links ++ [name]) = Ok target ->
     get_implementation_type schema target = Some base_t ->
     value <> PyNone ->
     validate_arg schema (arg_path [PathStepNode root] arg) value
       (is_membership op)
     = validate_value name value base_t (is_membership op))
  /\
  (forall decl self val crit,
     decl_name decl = name ->
     decl_value decl = None \/ type_nullable (decl_type decl) = true ->
     _vars self !! name = Some (val, crit) ->
     val <> PyNone ->
     type_names_lookup (scalar_name (decl_type decl)) = Ok base_t ->
     populate_variable decl self
     = if type_list (decl_type decl) then
         match val with
         | PyList _ => lift (validate_value name val base_t true) self
         | _ => Raise (should_be_list "variable" name)
         end
       else lift (validate_value name val base_t false) self).
Proof.
  split; [|split; [|split; [|split; [|split]]]].
  - intros x. unfold validate_value.
    pose proof (validate_each_native name base_t [x]) as H.
    cbn [List.map] in H.
    destruct (validate_each name base_t [native_value x]).
    + cbn in H. rewrite andb_true_r in H. exact H.
    + destruct H as (pre & y & post & Hxs & _ & Hy & ->).
      destruct pre as [|? [|? ?]]; cbn in Hxs; try discriminate.
      injection Hxs as -> _.
      split; [exact Hy|apply not_of_type_mentions].
  - intros xs. unfold validate_value.
    pose proof (validate_each_native name base_t xs) as H.
    destruct (validate_each name base_t (List.map native_value xs)).
    + exact H.
    + destruct H as (pre & y & post & -> & Hpre & Hy & ->).
      exists pre, y, post. repeat split; auto.
      apply not_of_type_mentions.
  - intros value Hnot. unfold validate_value.
    destruct value; try reflexivity.
    exfalso. apply (Hnot items). reflexivity.
  - intros value Hother. split.
    + apply (validate_each_other name base_t value [] []); [exact Hother|].
      reflexivity.
    + intros pre post Hpre. apply validate_each_other; assumption.
  - intros T schema root arg op stem links target value Hres Hparts Hbase
           Himpl Hvalue.
    unfold arg_path. rewrite (resolves_arg_op _ _ _ Hres). cbn [snd].
    rewrite (splits_split_dunder _ _ Hparts).
    apply (validate_arg_last_link schema root links name target);
      assumption.
  - intros decl self val crit <- Hdef Hbound Hval Hty.
    apply (populate_variable_bound decl self val crit base_t); assumption.
Qed.

Lemma validate_value_table_witness :
  validate_value "age" (PyInt 3) s_types.Int true
  = Raise (should_be_list "argument" "age")
  /\ validate_arg Sample.schema
       (arg_path [PathStepNode "User"]
          (Argument "profile__value__ne" (ScalarLiteral (PyInt 3))))
       (PyInt 3) false
     = validate_value "value" (PyInt 3) s_types.Str false.
Proof.
  split.
  - apply (proj1 (proj2 (proj2 (validate_value_table "age" s_types.Int)))).
    intros items H. discriminate H.
  - apply (proj1 (proj2 (proj2 (proj2 (proj2
             (validate_value_table "value" s_types.Str)))))
             Sample.ty Sample.schema "User"
             (Argument "profile__value__ne" (ScalarLiteral (PyInt 3)))
             NE "profile__value" ["profile"] Sample.str (PyInt 3)).
    + apply (resolves_suffix _ "profile__value" "__ne" NE);
        [cbn; tauto|reflexivity].
    + apply (splits_at "profile" "value" ["value"]); [reflexivity|].
      apply splits_whole. reflexivity.
    + reflexivity.
    + reflexivity.
    + discriminate.
Defined.

(** C4, as stated, fails in three ways.  Where a list is required, the
    integer [3] is rejected against the integer type, and the message has
    neither the value nor the type in it.  The list [[1, None]] is
    rejected with [KeyError], not with a validation error.  And for the
    argument [age__ne: "x"] the message names the link [age], not the
    argument. *)
Lemma validate_value_table_counterexample :
  (validate_value "age" (PyInt 3) s_types.Int true
   = Raise (should_be_list "argument" "age")
   /\ ~ mentions (should_be_list "argument" "age") "age" (PyInt 3)
          s_types.Int)
  /\ validate_value "age" (PyList [PyInt 1; PyNone]) s_types.Int true
     = Raise KeyError
  /\ (outcome (process_argument Sample.schema (Ok [PathStepNode "User"])
                 (Argument "age__ne" (ScalarLiteral (PyStr "x"))) Sample.new)
      = Raise (not_of_type (PyStr "x") s_types.Int "age")
      /\ ~ mentions (not_of_type (PyStr "x") s_types.Int "age") "age__ne"
             (PyStr "x") s_types.Int).
Proof.
  split; [split; [reflexivity|]|split; [reflexivity|split]].
  - intros (msg & Heq & _ & Hval & _). injection Heq as <-.
    cbn in Hval. destruct Hval as [H|[H|[H|[H|[]]]]]; discriminate H.
  - vm_compute. reflexivity.
  - intros (msg & Heq & Hname & _). injection Heq as <-.
    cbn in Hname.
    destruct Hname as [H|[H|[H|[H|[H|[H|[]]]]]]]; discriminate H.
Qed.

(** ** Conditional directives *)

(** Inside a selection set, a selection whose directives answer "do not
    include" is dropped before its kind is looked at: the loop goes on with
    the remaining selections, from the state the directives left. *)
Lemma excluded_selection_not_processed {T} (schema : Schema T) rec base sel
      rest self self1 :
  should_include (sel_directives sel) self = Ok (false, self1) ->
  pathspec_loop schema rec base (sel :: rest) self
  = pathspec_loop schema rec base rest self1.
Proof.
  intros H. cbn [pathspec_loop]. rewrite (bind_ok _ _ _ _ _ H). reflexivity.
Qed.

(** An [include] whose condition is false, or a [skip] whose condition is
    true, answers "do not include" at once. *)
Lemma should_include_excludes d rest self b self1 :
  eval_cond d self = Ok (AVal (PyBool b), self1) ->
  (directive_name d = "include" /\ b = false)
  \/ (directive_name d = "skip" /\ b = true) ->
  should_include (d :: rest) self = Ok (false, self1).
Proof.
  intros Hcond Hexcl. cbn [should_include].
  destruct Hexcl as [[Hname ->] | [Hname ->]]; rewrite Hname;
    cbn [is_conditional String.eqb Ascii.eqb Bool.eqb orb andb negb];
    rewrite (bind_ok _ _ _ _ _ Hcond); reflexivity.
Qed.

Example skipped_field :
  outcome (translate Sample.schema 3 skipped_field_document ∅ Sample.new)
  = Ok {[ None := (Some (select_of "User" []), []) ]}.
Proof. vm_compute. reflexivity. Qed.

(** C2 (the code at the failing input). The select query of a root
    selection does not depend on the directives the selection carries, and
    so [query { User @skip(if: true) { name } }] is translated to the select
    query of [User] with [name] in its shape: the root selection is not
    excluded. *)
Theorem root_selection_directives_ignored :
  (forall T (schema : Schema T) depth module name arguments directives
          directives' selection_set,
     selquery_of schema depth module
       (Field name arguments directives selection_set)
     = selquery_of schema depth module
         (Field name arguments directives' selection_set))
  /\ outcome (translate Sample.schema 3 skipped_root_document ∅ Sample.new)
     = Ok {[ None :=
               (Some (select_of "User"
                        [SelectPathSpecNode (link_step "name") None []]),
                []) ]}.
Proof.
  split; [reflexivity|].
  vm_compute. reflexivity.
Qed.

(** ** Root selections without a selection set *)

(** C8 (the code at the failing input). [query { User Group }], two root
    selections with no arguments and no nested selection set, is not
    translated: reading the selections of the missing selection set raises
    [AttributeError].  A nested field in the same situation is handled, and
    with empty selection sets the result is the union of the two select
    queries, each with an empty shape. *)
Theorem bare_root_selection_raises :
  outcome (translate Sample.schema 3 bare_roots_document ∅ Sample.new)
  = Raise AttributeError
  /\ outcome (process_field Sample.schema (process_pathspec Sample.schema 2)
                ["User"] "name" [] None Sample.new)
     = Ok (SelectPathSpecNode (link_step "name") None [])
  /\ outcome (translate Sample.schema 3
                [DOperation
                   (Sample.query [Field "User" [] [] (Some []);
                                  Field "Group" [] [] (Some [])])]
                ∅ Sample.new)
     = Ok {[ None :=
               (Some (union_node (select_of "User" [])
                                 (select_of "Group" [])), []) ]}.
Proof. repeat split; vm_compute; reflexivity. Qed.

(** ** The scenarios of the specification, computed *)

(** A field skipped on a variable: it is absent from the shape, the
    variable is critical, and the variable of the filter argument is not. *)
Example flag_document_translation :
  outcome (translate Sample.schema 3 flag_document flag_variables Sample.new)
  = Ok {[ None :=
            (Some (SelectQueryNode [NamespaceAliasDeclNode (AVal PyNone)]
                     [SelectExprNode
                        (PathNode [PathStepNode "User"]
                           [SelectPathSpecNode (link_step "name") None []])]
                     (Some (BinOpNode
                              (PathNode [PathStepNode "User"; link_step "id"]
                                        [])
                              EQ (ConstantNode PyNone (Some "id"))))
                     None None None),
             [("$flag", PyBool true)]) ]}.
Proof. vm_compute. reflexivity. Qed.

(** * Further properties *)

(** ** [_get_module] *)

Lemma args_module_last args :
  forall found,
    args_module args found
    = match List.rev (List.filter is_module_arg args) with
      | a :: _ => Some (literal_value (arg_value a))
      | [] => found
      end.
Proof.
  induction args as [|a rest IH]; intros found; [reflexivity|].
  cbn [args_module List.filter]. rewrite IH.
  change (String.eqb (arg_name a) "module") with (is_module_arg a).
  destruct (is_module_arg a); [|reflexivity].
  cbn [List.rev].
  destruct (List.rev (List.filter is_module_arg rest)); reflexivity.
Qed.

(** X1. The module of a list of directives is the [module] argument of
    its last [edgedb] directive, and within one directive the last
    [module] argument; with no [edgedb] directive it is [None]; and when
    any [edgedb] directive, not only the last, has no [module] argument,
    the lookup raises [KeyError]. *)
Theorem get_module_last_wins (directives : list directive) :
  get_module directives
  = match all_present (List.map module_arg
                         (List.filter is_edgedb directives)) with
    | Some modules => Ok (List.last modules (AVal PyNone))
    | None => Raise KeyError
    end.
Proof.
  unfold get_module. generalize (AVal PyNone).
  induction directives as [|d rest IH]; intros module; [reflexivity|].
  cbn [get_module_from List.filter].
  change (String.eqb (directive_name d) "edgedb") with (is_edgedb d).
  destruct (is_edgedb d); [|apply IH].
  cbn [List.map all_present]. rewrite args_module_last.
  fold (module_arg d). destruct (module_arg d) as [m|]; [|reflexivity].
  rewrite IH.
  destruct (all_present (List.map module_arg (List.filter is_edgedb rest)))
    as [[|m' ms]|]; try reflexivity.
  f_equal. change (List.last (m' :: ms) m = List.last (m' :: ms) module).
  apply last_nonempty.
Qed.

(** ** [_should_include] *)

Lemma cond_value_same_values vars vars' d :
  same_values vars vars' -> cond_value vars d = cond_value vars' d.
Proof.
  intros Hsame. unfold cond_value.
  destruct (directive_if d) as [[name| | |]|]; try reflexivity.
  specialize (Hsame name).
  destruct (vars !! name) as [[v c]|], (vars' !! name) as [[v' c']|];
    cbn in Hsame; try discriminate Hsame; [|reflexivity].
  injection Hsame as ->. reflexivity.
Qed.

Lemma rules_out_same_values vars vars' d :
  same_values vars vars' -> rules_out vars d = rules_out vars' d.
Proof.
  intros Hsame. unfold rules_out.
  rewrite (cond_value_same_values vars vars' d Hsame). reflexivity.
Qed.

Lemma same_values_flag vars name val crit :
  vars !! name = Some (val, crit) ->
  same_values vars (<[name := (val, true)]> vars).
Proof.
  intros Hlook n. destruct (decide (name = n)) as [<-|Hne].
  - rewrite lookup_insert_eq, Hlook. reflexivity.
  - rewrite lookup_insert_ne by assumption. reflexivity.
Qed.

Lemma same_values_trans vars1 vars2 vars3 :
  same_values vars1 vars2 -> same_values vars2 vars3 ->
  same_values vars1 vars3.
Proof. intros H12 H23 n. rewrite (H12 n). apply H23. Qed.

Lemma eval_cond_value d self b :
  cond_value (_vars self) d = Some b ->
  exists self',
    eval_cond d self = Ok (AVal (PyBool b), self')
    /\ same_values (_vars self) (_vars self')
    /\ _fragments self' = _fragments self.
Proof.
  unfold cond_value, eval_cond, bind, lift. intros H.
  destruct (directive_if d) as [[name| | |[]]|]; try discriminate H;
    cbv beta iota.
  - unfold read_cond_var.
    destruct (_vars self !! name) as [[[] crit]|] eqn:Hlook;
      try discriminate H.
    injection H as ->. cbv beta iota. unfold ret.
    eexists. split; [reflexivity|]. cbn [_vars _fragments].
    split; [|reflexivity]. eapply same_values_flag, Hlook.
  - injection H as ->. exists self. split; [reflexivity|].
    split; [intros n|]; reflexivity.
Qed.

Lemma existsb_pointwise {A} (f g : A -> bool) l :
  (forall x, f x = g x) -> existsb f l = existsb g l.
Proof.
  intros H. induction l as [|x l IH]; [reflexivity|].
  cbn [existsb]. rewrite H, IH. reflexivity.
Qed.

(** X2. When every conditional directive of a selection tests a Boolean
    (a Boolean literal or a variable bound to a Boolean), evaluating the
    directives raises nothing and answers "include" exactly when no
    [include] is on false and no [skip] is on true, in whatever order the
    directives come; directives of other names are passed over; and the
    environment keeps its names and values. *)
Theorem should_include_any_excludes (directives : list directive)
        (self : translator) :
  well_conditioned (_vars self) directives ->
  exists self',
    should_include directives self
    = Ok (negb (existsb (rules_out (_vars self)) directives), self')
    /\ same_values (_vars self) (_vars self')
    /\ _fragments self' = _fragments self.
Proof.
  revert self. induction directives as [|d rest IH]; intros self Hwell.
  - exists self. split; [reflexivity|]. split; [intros n|]; reflexivity.
  - cbn [should_include existsb].
    assert (well_conditioned (_vars self) rest) as Hrest
      by (intros d' Hin; apply Hwell; right; exact Hin).
    destruct (is_conditional (directive_name d)) eqn:Hcond.
    + destruct (cond_value (_vars self) d) as [b|] eqn:Hval;
        [|exfalso; exact (Hwell d (or_introl eq_refl) Hcond Hval)].
      destruct (eval_cond_value d self b Hval)
        as (self1 & Heval & Hsame & Hfrag).
      rewrite (bind_ok _ _ _ _ _ Heval). unfold rules_out at 1.
      rewrite Hval.
      destruct (String.eqb (directive_name d) "include" && negb b)%bool;
        [exists self1; auto|].
      destruct (String.eqb (directive_name d) "skip" && b)%bool;
        [exists self1; auto|].
      cbn [orb].
      destruct (IH self1) as (self' & Hrun & Hsame' & Hfrag').
      { intros d' Hin Hc.
        rewrite <- (cond_value_same_values _ _ d' Hsame).
        apply Hrest; assumption. }
      exists self'. rewrite Hrun.
      split; [|split; [eapply same_values_trans; eassumption|congruence]].
      do 3 f_equal. apply existsb_pointwise. intros d'. symmetry.
      apply rules_out_same_values, Hsame.
    + assert (rules_out (_vars self) d = false) as ->.
      { unfold rules_out. unfold is_conditional in Hcond.
        apply orb_false_elim in Hcond as [-> ->].
        destruct (cond_value (_vars self) d); reflexivity. }
      apply IH, Hrest.
Qed.

Lemma should_include_any_excludes_witness :
  exists self',
    should_include
      [Directive "edgedb" [];
       Sample.include_if (Var "$shown");
       Sample.skip_if (ScalarLiteral (PyBool true))]
      {| _fragments := ∅; _vars := {[ "$shown" := (PyBool true, false) ]};
         reads := [] |}
    = Ok (false, self').
Proof.
  destruct (should_include_any_excludes
              [Directive "edgedb" [];
               Sample.include_if (Var "$shown");
               Sample.skip_if (ScalarLiteral (PyBool true))]
              {| _fragments := ∅;
                 _vars := {[ "$shown" := (PyBool true, false) ]};
                 reads := [] |}) as (self' & Hrun & _).
  - intros d [<-|[<-|[<-|[]]]] Hc; vm_compute; discriminate.
  - exists self'. exact Hrun.
Defined.

(** ** [_validate_value] on arbitrary values *)

Lemma validate_each_ok name base_t items :
  validate_each name base_t items = Ok tt
  <-> forallb (accepted_by base_t) items = true.
Proof.
  induction items as [|v rest IH]; [cbn; tauto|].
  cbn [validate_each forallb]. unfold accepted_by at 1.
  destruct (PY_COERCION_MAP (type_of v)) as [classes|].
  - destruct (s_types.issubclass base_t classes); cbn [andb];
      [exact IH|split; discriminate].
  - cbn [andb]. split; discriminate.
Qed.

(** X3. On any Python value, not only the four native kinds: a single
    value passes validation exactly when its type is in the coercion table
    and the table lists the schema type for it, and a sequence passes
    exactly when it is a list all of whose elements do (the empty list
    always does).  In particular [None], a nested list or any other object
    is never accepted, as a value or as an element. *)
Theorem validate_value_ok_iff (name : string) (base_t : s_types.t)
        (value : pyval) :
  (validate_value name value base_t false = Ok tt
   <-> accepted_by base_t value = true)
  /\
  (validate_value name value base_t true = Ok tt
   <-> exists items,
         value = PyList items
         /\ forallb (accepted_by base_t) items = true)
  /\ accepted_by base_t PyNone = false
  /\ (forall items, accepted_by base_t (PyList items) = false)
  /\ (forall cls, accepted_by base_t (PyObject cls) = false).
Proof.
  split; [|split; [|repeat split]].
  - unfold validate_value. rewrite validate_each_ok. cbn [forallb].
    rewrite andb_true_r. tauto.
  - unfold validate_value. split.
    + destruct value; try discriminate.
      intros H. exists items. split; [reflexivity|].
      apply (proj1 (validate_each_ok name base_t items)), H.
    + intros (items & -> & H).
      apply (proj2 (validate_each_ok name base_t items)), H.
Qed.

(** ** Argument names *)

(** X4. An argument name that ends in one of the four suffixes resolves
    to that suffix's operator and to everything before the suffix, whatever
    comes before: only the last suffix counts, and the part before it may be
    empty.  A name shorter than four characters is compared for equality
    under its whole name. *)
Theorem arg_op_suffix :
  (forall stem sfx op,
     In (sfx, op) suffixes -> arg_op (stem +:+ sfx) = (op, stem))
  /\ (forall name,
        (String.length name < 4)%nat -> arg_op name = (EQ, name)).
Proof.
  split.
  - intros stem sfx op Hin. unfold arg_op.
    pose proof (suffix_length sfx op Hin) as Hlen.
    rewrite (last4_app stem sfx Hlen), (drop_last4_app stem sfx Hlen).
    apply ops_map_suffixes in Hin. rewrite Hin. reflexivity.
  - intros name Hlen. unfold arg_op.
    destruct (GQL_OPS_MAP (last4 name)) as [op|] eqn:Hop; [|reflexivity].
    exfalso. apply ops_map_suffixes in Hop.
    apply suffix_length in Hop. unfold last4 in Hop.
    replace (String.length name - 4)%nat with 0%nat in Hop by lia.
    rewrite substring_0_all in Hop by lia. lia.
Qed.

Lemma arg_op_suffix_witness :
  arg_op ("owner__name" +:+ "__ni") = (NOT_IN, "owner__name")
  /\ arg_op ("a__eq" +:+ "__ne") = (NE, "a__eq")
  /\ arg_op ("" +:+ "__in") = (IN, "")
  /\ arg_op "_eq" = (EQ, "_eq").
Proof.
  split; [|split; [|split]].
  - apply (proj1 arg_op_suffix). cbn. tauto.
  - apply (proj1 arg_op_suffix). cbn. tauto.
  - apply (proj1 arg_op_suffix). cbn. tauto.
  - apply (proj2 arg_op_suffix). cbn. lia.
Defined.

(** ** [_process_literal] *)

Lemma literal_nested_ind (P : literal -> Prop) :
  (forall value, P (Var value)) ->
  (forall value, Forall P value -> P (ListLiteral value)) ->
  (forall value, P (ObjectLiteral value)) ->
  (forall value, P (ScalarLiteral value)) ->
  forall lit, P lit.
Proof.
  intros HVar HList HObject HScalar.
  fix IH 1. intros [value|value|value|value].
  - apply HVar.
  - apply HList. induction value as [|el rest IHrest]; constructor.
    + apply IH.
    + exact IHrest.
  - apply HObject.
  - apply HScalar.
Qed.

(** X5. Coercing a literal fails exactly when an object literal occurs in
    it, at any depth of list nesting, and then with the one validation
    error for object literals; otherwise it yields a constant for a scalar,
    a constant that points at the variable (its name without the first
    character) for a variable, and for a list a sequence of the coerced
    elements, as many and in the same order. *)
Theorem process_literal_object_free (lit : literal) :
  process_literal lit
  = if object_free lit then Ok (constant_of lit) else Raise object_literal.
Proof.
  induction lit as [value|value IH|value|value] using literal_nested_ind;
    try reflexivity.
  cbn [process_literal object_free constant_of].
  induction IH as [|el rest Hel _ IHrest]; [reflexivity|].
  cbn [forallb List.map]. rewrite Hel.
  destruct (object_free el); [|reflexivity].
  cbn [rbind andb] in *.
  destruct (forallb object_free rest).
  - destruct ((fix each (els : list literal) : result (list ql) :=
                 match els with
                 | [] => Ok []
                 | el0 :: rest0 =>
                     rbind (process_literal el0)
                       (fun x => rbind (each rest0)
                                   (fun xs => Ok (x :: xs)))
                 end) rest) as [xs|e]; cbn [rbind] in *.
    + injection IHrest as ->. reflexivity.
    + discriminate IHrest.
  - destruct ((fix each (els : list literal) : result (list ql) :=
                 match els with
                 | [] => Ok []
                 | el0 :: rest0 =>
                     rbind (process_literal el0)
                       (fun x => rbind (each rest0)
                                   (fun xs => Ok (x :: xs)))
                 end) rest) as [xs|e]; cbn [rbind] in *.
    + discriminate IHrest.
    + injection IHrest as ->. reflexivity.
Qed.

(** ** Reading a filter back *)

Lemma conjuncts_conjunction others :
  forall acc, conjuncts (conjunction acc others) = conjuncts acc ++ others.
Proof.
  unfold conjunction.
  induction others as [|x others IH]; intros acc; cbn [fold_left].
  - symmetry. apply app_nil_r.
  - rewrite IH. cbn [conjuncts]. rewrite <- app_assoc. reflexivity.
Qed.

Lemma resolves_operator name op stem :
  resolves name op stem -> op = EQ \/ op = NE \/ op = IN \/ op = NOT_IN.
Proof.
  intros [stem' sfx op' Hin _|_]; [|tauto].
  destruct Hin as [H|[H|[H|[H|[]]]]]; injection H as _ <-; tauto.
Qed.

Lemma argument_rule_comparison {T} (schema : Schema T) prefix self arg x :
  argument_rule schema prefix self arg x -> is_comparison (binop x).
Proof.
  destruct x as [[path op] value].
  intros (stem & parts & decoded & Hres & _).
  exists path, op, value. split; [reflexivity|].
  eapply resolves_operator, Hres.
Qed.

Lemma comparison_conjuncts e : is_comparison e -> conjuncts e = [e].
Proof.
  intros (path & op & value & -> & [->|[->|[->| ->]]]); reflexivity.
Qed.

(** X6. A filter can be read back: its conjuncts, taken from the
    left-nested conjunction, are the comparisons of the arguments, one per
    argument and in the order of the arguments, each a comparison by one of
    the four argument operators (never a conjunction itself); and there is
    a filter exactly when there is at least one argument. *)
Theorem filter_conjuncts {T} (schema : Schema T) (prefix : list ql)
        (arguments : list argument) (self self' : translator)
        (filter : option ql) :
  where_of schema (Ok prefix) arguments self = Ok (filter, self') ->
  match filter with
  | None => arguments = []
  | Some e =>
      exists triples,
        process_arguments schema (Ok prefix) arguments self
        = Ok (triples, self')
        /\ conjuncts e = List.map binop triples
        /\ length (conjuncts e) = length arguments
        /\ Forall is_comparison (conjuncts e)
  end.
Proof.
  unfold where_of. destruct arguments as [|arg rest]; intros H.
  - apply ret_inv in H as [-> _]. reflexivity.
  - apply bind_inv in H as (triples & s1 & Hargs & H).
    apply bind_inv in H as (e & s2 & Hjoin & H).
    apply lift_inv in Hjoin as [Hjoin ->]. apply ret_inv in H as [-> ->].
    exists triples. split; [exact Hargs|].
    apply process_arguments_rule in Hargs as [Hall _].
    apply join_expressions_conjunction in Hjoin
      as (first & others & Hmap & ->).
    assert (Forall is_comparison (List.map binop triples)) as Hcmp.
    { clear Hmap. induction Hall as [|a x args xs Hrule _ IH]; cbn.
      - constructor.
      - constructor; [eapply argument_rule_comparison, Hrule|exact IH]. }
    assert (conjuncts (conjunction first others) = List.map binop triples)
      as Hback.
    { rewrite conjuncts_conjunction, Hmap. rewrite Hmap in Hcmp.
      inversion Hcmp as [|? ? Hfirst _]; subst.
      rewrite (comparison_conjuncts first Hfirst). reflexivity. }
    rewrite Hback. split; [reflexivity|]. split; [|exact Hcmp].
    rewrite length_map. symmetry. eapply Forall2_length, Hall.
Qed.

Lemma filter_conjuncts_witness :
  exists e self' triples,
    where_of Sample.schema (Ok [PathStepNode "User"]) sample_arguments
      Sample.new
    = Ok (Some e, self')
    /\ conjuncts e = List.map binop triples
    /\ length (conjuncts e) = 3%nat.
Proof.
  destruct (where_of Sample.schema (Ok [PathStepNode "User"]) sample_arguments
              Sample.new) as [[[e|] self']|err] eqn:Hrun;
    [|vm_compute in Hrun; discriminate Hrun
     |vm_compute in Hrun; discriminate Hrun].
  destruct (filter_conjuncts Sample.schema [PathStepNode "User"]
              sample_arguments Sample.new self' (Some e) Hrun)
    as (triples & _ & Hback & Hlen & _).
  exists e, self', triples. auto.
Defined.


(** ** Relations between the state before and the state after *)

Section Respects.

Context (R : translator -> translator -> Prop).
Context {R_refl : Reflexive R} {R_trans : Transitive R}.

Lemma respects_ret {A} (a : A) : respects R (ret a).
Proof. intros self a' self' H. apply ret_inv in H as [_ ->]. reflexivity. Qed.

Lemma respects_raise {A} e : respects R (@raise A e).
Proof. intros self a self' H. discriminate H. Qed.

Lemma respects_lift {A} (r : result A) : respects R (lift r).
Proof. intros self a self' H. apply lift_inv in H as [_ ->]. reflexivity. Qed.

Lemma respects_get_vars : respects R get_vars.
Proof. intros self a self' H. injection H as _ <-. reflexivity. Qed.

Lemma respects_bind {A B} (m : M A) (k : A -> M B) :
  respects R m -> (forall a, respects R (k a)) -> respects R (bind m k).
Proof.
  intros Hm Hk self b self2 H.
  apply bind_inv in H as (a & self1 & H1 & H2).
  transitivity self1; [eapply Hm|eapply Hk]; eassumption.
Qed.

End Respects.

Ltac resp_step :=
  lazymatch goal with
  | |- respects _ (ret _) => apply respects_ret; assumption
  | |- respects _ (raise _) => apply respects_raise
  | |- respects _ (lift _) => apply respects_lift; assumption
  | |- respects _ get_vars => apply respects_get_vars; assumption
  | |- respects _ (bind _ _) =>
      apply respects_bind; [assumption| |intros ?]
  | |- respects _ (match ?x with _ => _ end) => destruct x
  end.

Ltac resp := repeat first [assumption | resp_step].

#[local] Instance only_arg_reads_refl : Reflexive only_arg_reads.
Proof.
  intros s. split; [reflexivity|]. split; [reflexivity|].
  exists []. symmetry. apply app_nil_r.
Qed.

#[local] Instance only_arg_reads_trans : Transitive only_arg_reads.
Proof.
  intros s1 s2 s3 (Hv1 & Hf1 & n1 & Hr1) (Hv2 & Hf2 & n2 & Hr2).
  split; [congruence|]. split; [congruence|].
  exists (n1 ++ n2). rewrite Hr2, Hr1, List.map_app, app_assoc. reflexivity.
Qed.

Lemma read_arg_var_only_arg_reads name :
  respects only_arg_reads (read_arg_var name).
Proof.
  intros self val self'. unfold read_arg_var.
  destruct (_vars self !! name) as [[v crit]|]; [|discriminate].
  intros H. injection H as _ <-.
  split; [reflexivity|]. split; [reflexivity|]. exists [name]. reflexivity.
Qed.

Lemma process_arguments_only_arg_reads {T} (schema : Schema T) prefix args :
  respects only_arg_reads (process_arguments schema prefix args).
Proof.
  pose proof only_arg_reads_refl as Hrefl.
  pose proof only_arg_reads_trans as Htrans.
  induction args as [|arg rest IH]; cbn [process_arguments]; resp.
  unfold process_argument. resp.
  unfold check_value_of. resp.
  apply read_arg_var_only_arg_reads.
Qed.

(** X7. Building the filter of a selection only reads: when it returns,
    the variable environment, critical flags included, and the fragment
    table are what they were, and all that has been added to the record of
    reads are reads for argument values. *)
Theorem filter_building_only_reads {T} (schema : Schema T)
        (get_path_prefix : result (list ql)) (arguments : list argument)
        (self self' : translator) (filter : option ql) :
  where_of schema get_path_prefix arguments self = Ok (filter, self') ->
  only_arg_reads self self'.
Proof.
  pose proof only_arg_reads_refl as Hrefl.
  pose proof only_arg_reads_trans as Htrans.
  revert self filter self'.
  change (respects only_arg_reads
            (where_of schema get_path_prefix arguments)).
  unfold where_of. resp. apply process_arguments_only_arg_reads.
Qed.

Lemma filter_building_only_reads_witness :
  exists filter self',
    where_of Sample.schema (Ok [PathStepNode "User"])
      [Argument "name" (Var "$n")]
      {| _fragments := ∅; _vars := {[ "$n" := (PyStr "Ann", false) ]};
         reads := [] |}
    = Ok (filter, self')
    /\ _vars self' = {[ "$n" := (PyStr "Ann", false) ]}.
Proof.
  destruct (where_of Sample.schema (Ok [PathStepNode "User"])
              [Argument "name" (Var "$n")]
              {| _fragments := ∅;
                 _vars := {[ "$n" := (PyStr "Ann", false) ]};
                 reads := [] |}) as [[filter self']|err] eqn:Hrun;
    [|vm_compute in Hrun; discriminate Hrun].
  exists filter, self'. split; [reflexivity|].
  exact (proj1 (filter_building_only_reads Sample.schema _ _ _ _ _ Hrun)).
Defined.

(** ** The environment during the translation of an operation *)

#[local] Instance env_grows_refl : Reflexive env_grows.
Proof. intros s. split; [reflexivity|]. intros name val crit H. eauto. Qed.

#[local] Instance env_grows_trans : Transitive env_grows.
Proof.
  intros s1 s2 s3 [Hf1 H1] [Hf2 H2]. split; [congruence|].
  intros name val crit Hlook.
  destruct (H1 name val crit Hlook) as (c2 & Hlook2 & Hc2).
  destruct (H2 name val c2 Hlook2) as (c3 & Hlook3 & Hc3).
  exists c3. auto.
Qed.

Lemma read_cond_var_env_grows name : respects env_grows (read_cond_var name).
Proof.
  intros self val self'. unfold read_cond_var.
  destruct (_vars self !! name) as [[v crit]|] eqn:Hlook; [|discriminate].
  intros H. injection H as _ <-. split; [reflexivity|].
  intros n val' crit' Hn. cbn [_vars].
  destruct (decide (name = n)) as [<-|Hne].
  - rewrite lookup_insert_eq. rewrite Hlook in Hn. injection Hn as <- <-.
    eauto.
  - rewrite lookup_insert_ne by assumption. eauto.
Qed.

Lemma read_arg_var_env_grows name : respects env_grows (read_arg_var name).
Proof.
  intros self val self'. unfold read_arg_var.
  destruct (_vars self !! name) as [[v crit]|]; [|discriminate].
  intros H. injection H as _ <-. split; [reflexivity|].
  intros n val' crit' Hn. eauto.
Qed.

Lemma should_include_env_grows directives :
  respects env_grows (should_include directives).
Proof.
  pose proof env_grows_refl as Hrefl. pose proof env_grows_trans as Htrans.
  induction directives as [|d rest IH]; cbn [should_include]; resp.
  unfold eval_cond. resp. apply read_cond_var_env_grows.
Qed.

Lemma env_grows_seed self name entry :
  _vars self !! name = None ->
  env_grows self {| _fragments := _fragments self;
                    _vars := <[name := entry]> (_vars self);
                    reads := reads self |}.
Proof.
  intros Hnone. split; [reflexivity|].
  intros n val crit Hn. cbn [_vars]. exists crit. split; [|auto].
  rewrite lookup_insert_ne; [exact Hn|]. intros <-. congruence.
Qed.

Lemma populate_variable_env_grows decl :
  respects env_grows (populate_variable decl).
Proof.
  pose proof env_grows_refl as Hrefl. pose proof env_grows_trans as Htrans.
  unfold populate_variable.
  destruct (is_not_none (decl_value decl)
            && negb (type_nullable (decl_type decl)))%bool;
    [apply respects_raise|].
  intros self a self' H.
  apply bind_inv in H as (vars & s0 & Hget & H).
  injection Hget as <- <-.
  apply bind_inv in H as ([] & s1 & Hseed & H).
  assert (env_grows self s1) as Hgrow1.
  { destruct (_vars self !! decl_name decl) as [entry|] eqn:Hlook.
    - apply ret_inv in Hseed as [_ ->]. reflexivity.
    - destruct (decl_value decl); injection Hseed as <-;
        apply env_grows_seed; assumption. }
  transitivity s1; [exact Hgrow1|].
  revert H. generalize s1 a self'.
  change (respects env_grows
            (variables <- get_vars ;;
             match variables !! decl_name decl with
             | None => raise KeyError
             | Some (val, _) =>
                 match val with
                 | PyNone =>
                     if negb (type_nullable (decl_type decl))
                     then raise (missing_value (decl_name decl))
                     else ret tt
                 | _ =>
                     if type_list (decl_type decl) then
                       match val with
                       | PyList _ =>
                           lift (base_t <~ type_names_lookup
                                             (scalar_name (decl_type decl)) ;;
                                 validate_value (decl_name decl) val base_t
                                                true)
                       | _ => raise (should_be_list "variable"
                                       (decl_name decl))
                       end
                     else
                       lift (base_t <~ type_names_lookup
                                         (scalar_name (decl_type decl)) ;;
                             validate_value (decl_name decl) val base_t false)
                 end
             end)).
  resp.
Qed.

Lemma populate_env_grows declarations :
  respects env_grows (populate_variable_defaults declarations).
Proof.
  pose proof env_grows_refl as Hrefl. pose proof env_grows_trans as Htrans.
  induction declarations as [|d rest IH]; cbn [populate_variable_defaults];
    resp.
  apply populate_variable_env_grows.
Qed.

Section EnvGrows.

Context {T : Type} (schema : Schema T).

Lemma process_arguments_env_grows prefix args :
  respects env_grows (process_arguments schema prefix args).
Proof.
  pose proof env_grows_refl as Hrefl. pose proof env_grows_trans as Htrans.
  induction args as [|arg rest IH]; cbn [process_arguments]; resp.
  unfold process_argument. resp.
  unfold check_value_of. resp.
  apply read_arg_var_env_grows.
Qed.

Lemma where_of_env_grows prefix arguments :
  respects env_grows (where_of schema prefix arguments).
Proof.
  pose proof env_grows_refl as Hrefl. pose proof env_grows_trans as Htrans.
  unfold where_of. resp. apply process_arguments_env_grows.
Qed.

Lemma pathspec_loop_env_grows rec :
  (forall base selections, respects env_grows (rec base selections)) ->
  forall base selections,
    respects env_grows (pathspec_loop schema rec base selections).
Proof.
  pose proof env_grows_refl as Hrefl. pose proof env_grows_trans as Htrans.
  intros Hrec base selections.
  induction selections as [|sel rest IH]; cbn [pathspec_loop]; resp.
  - apply should_include_env_grows.
  - unfold process_field. resp; [apply where_of_env_grows|apply Hrec].
  - unfold process_inline_fragment. resp. apply Hrec.
  - intros s x s' Hrun. unfold process_spread in Hrun.
    destruct (_fragments s !! name) as [f|]; [|discriminate Hrun].
    assert (respects env_grows
              (lift (validate_fragment_type schema base
                       (Some (frag_name f)) (frag_on f) (frag_directives f))
               ;;; rec base (frag_selections f))) as Hp
      by (resp; apply Hrec).
    exact (Hp s x s' Hrun).
Qed.

Lemma process_pathspec_env_grows depth :
  forall base selections,
    respects env_grows (process_pathspec schema depth base selections).
Proof.
  induction depth as [|depth IH]; intros base selections;
    cbn [process_pathspec].
  - apply respects_raise.
  - apply pathspec_loop_env_grows, IH.
Qed.

Lemma selquery_of_env_grows depth module selset :
  respects env_grows (selquery_of schema depth module selset).
Proof.
  pose proof env_grows_refl as Hrefl. pose proof env_grows_trans as Htrans.
  unfold selquery_of, process_selset, select_where, process_select_where.
  resp; try apply process_pathspec_env_grows; apply where_of_env_grows.
Qed.

Lemma definition_loop_env_grows depth module selections :
  forall query,
    respects env_grows
      (definition_loop schema depth module query selections).
Proof.
  pose proof env_grows_refl as Hrefl. pose proof env_grows_trans as Htrans.
  induction selections as [|selset rest IH]; intros query;
    cbn [definition_loop]; resp.
  - apply selquery_of_env_grows.
  - apply IH.
Qed.

End EnvGrows.

Lemma process_definition_env_grows {T} (schema : Schema T) (depth : nat)
      (definition : operation_definition) (self self' : translator)
      (query : option ql) :
  process_definition schema depth definition self = Ok (query, self') ->
  env_grows self self'.
Proof.
  pose proof env_grows_refl as Hrefl. pose proof env_grows_trans as Htrans.
  revert self query self'.
  change (respects env_grows (process_definition schema depth definition)).
  unfold process_definition. resp.
  - apply populate_env_grows.
  - apply definition_loop_env_grows.
Qed.

(** X8. While one operation is translated the environment only grows:
    when the translation of its definition returns, every variable that was
    bound is still bound to the same value, a critical flag that was set is
    still set, and the fragment table is the one it started with.  So after
    an operation has been translated, every variable the caller supplied is
    bound to the value supplied. *)
Theorem environment_only_grows {T} (schema : Schema T) (depth : nat)
        (definition : operation_definition) :
  (forall self self' query,
     process_definition schema depth definition self = Ok (query, self') ->
     env_grows self self')
  /\
  (forall variables self self' r,
     translate_operation schema depth variables definition self
     = Ok (r, self') ->
     _fragments self' = _fragments self
     /\ forall name val,
          variables !! name = Some val ->
          exists crit, _vars self' !! name = Some (val, crit)).
Proof.
  split; [intros self self' query; apply process_definition_env_grows|].
  intros variables self self' r H. unfold translate_operation in H.
  apply bind_inv in H as ([] & s0 & Hset & H). injection Hset as <-.
  apply bind_inv in H as (q & s1 & Hdef & H).
  apply bind_inv in H as (vars & s2 & Hget & H). injection Hget as <- <-.
  apply ret_inv in H as [_ ->].
  apply process_definition_env_grows in Hdef as [Hf Hkeep].
  split; [exact Hf|].
  intros name val Hval.
  destruct (Hkeep name val false) as (crit & Hlook & _).
  - cbn [_vars]. unfold fresh_vars. rewrite lookup_fmap, Hval. reflexivity.
  - exists crit. exact Hlook.
Qed.

Lemma environment_only_grows_witness :
  exists query self',
    process_definition Sample.schema 3
      (Sample.query
         [Field "User" [] []
            (Some [Field "name" [] [Sample.skip_if (Var "$flag")] None])])
      {| _fragments := ∅; _vars := {[ "$flag" := (PyBool false, false) ]};
         reads := [] |}
    = Ok (query, self')
    /\ exists crit, _vars self' !! "$flag" = Some (PyBool false, crit).
Proof.
  destruct (process_definition Sample.schema 3
              (Sample.query
                 [Field "User" [] []
                    (Some [Field "name" [] [Sample.skip_if (Var "$flag")]
                             None])])
              {| _fragments := ∅;
                 _vars := {[ "$flag" := (PyBool false, false) ]};
                 reads := [] |}) as [[query self']|err] eqn:Hrun;
    [|vm_compute in Hrun; discriminate Hrun].
  exists query, self'. split; [reflexivity|].
  destruct (proj1 (environment_only_grows Sample.schema _ _) _ _ _ Hrun)
    as [_ Hkeep].
  destruct (Hkeep "$flag" (PyBool false) false eq_refl) as (crit & Hc & _).
  exists crit. exact Hc.
Defined.

(** ** [_populate_variable_defaults] *)

Lemma lift_ok_iff {A} (r : result A) self a self' :
  lift r self = Ok (a, self') <-> r = Ok a /\ self' = self.
Proof.
  split; [apply lift_inv|]. intros [-> ->]. reflexivity.
Qed.

Lemma validate_declared decl val self self' :
  val <> PyNone ->
  (if type_list (decl_type decl) then
     match val with
     | PyList _ =>
         lift (base_t <~ type_names_lookup (scalar_name (decl_type decl)) ;;
               validate_value (decl_name decl) val base_t true)
     | _ => raise (should_be_list "variable" (decl_name decl))
     end
   else
     lift (base_t <~ type_names_lookup (scalar_name (decl_type decl)) ;;
           validate_value (decl_name decl) val base_t false)) self
  = Ok (tt, self')
  <-> conforms (decl_type decl) val = true /\ self' = self.
Proof.
  intros Hval. unfold conforms.
  destruct (type_list (decl_type decl)).
  - destruct val; try contradiction;
      try (split; [intros H; discriminate H|];
           destruct (type_names_lookup (scalar_name (decl_type decl)));
           intros [H _]; discriminate H).
    rewrite lift_ok_iff.
    destruct (type_names_lookup (scalar_name (decl_type decl))) as [t|e];
      cbn [rbind].
    + unfold validate_value. rewrite validate_each_ok. tauto.
    + split; intros [H _]; discriminate H.
  - rewrite lift_ok_iff.
    destruct (type_names_lookup (scalar_name (decl_type decl))) as [t|e];
      cbn [rbind].
    + unfold validate_value. rewrite validate_each_ok. cbn [forallb].
      rewrite andb_true_r. destruct val; try contradiction; tauto.
    + destruct val; try contradiction; split; intros [H _]; discriminate H.
Qed.

Lemma seeded_lookup decl self :
  exists crit,
    _vars (seeded decl self) !! decl_name decl
    = Some (value_after_seeding decl self, crit).
Proof.
  unfold seeded, value_after_seeding, default_value.
  destruct (_vars self !! decl_name decl) as [[v c]|] eqn:Hlook.
  - exists c. exact Hlook.
  - exists false. cbn [_vars]. apply lookup_insert_eq.
Qed.

Lemma populate_variable_ok_iff decl self self' :
  populate_variable decl self = Ok (tt, self')
  <-> (is_not_none (decl_value decl)
       && negb (type_nullable (decl_type decl)))%bool = false
      /\ conforms (decl_type decl) (value_after_seeding decl self) = true
      /\ self' = seeded decl self.
Proof.
  unfold populate_variable.
  destruct (is_not_none (decl_value decl)
            && negb (type_nullable (decl_type decl)))%bool;
    [split; [intros H; discriminate H|intros [H _]; discriminate H]|].
  assert ((match _vars self !! decl_name decl with
           | Some _ => ret tt
           | None =>
               match decl_value decl with
               | None => set_var (decl_name decl) (PyNone, false)
               | Some default =>
                   set_var (decl_name decl) (topython default, false)
               end
           end) self = Ok (tt, seeded decl self)) as Hseed.
  { unfold seeded, default_value.
    destruct (_vars self !! decl_name decl); [reflexivity|].
    destruct (decl_value decl); reflexivity. }
  unfold bind at 1. cbn [get_vars]. rewrite (bind_ok _ _ _ _ _ Hseed).
  unfold bind at 1. cbn [get_vars].
  destruct (seeded_lookup decl self) as (crit & ->).
  destruct (value_after_seeding decl self) eqn:Hval;
    try (match goal with
         | |- context [validate_value _ ?v _ _] =>
             destruct (validate_declared decl v (seeded decl self) self')
               as [Hv1 Hv2]; [discriminate|];
             split;
             [intros H; destruct (Hv1 H); auto
             |intros (_ & Hc & Hs); apply Hv2; auto]
         end).
  unfold conforms. destruct (type_nullable (decl_type decl)); cbn [negb].
  - split; [intros H; injection H as <-; auto|intros (_ & _ & ->); reflexivity].
  - split; [intros H; discriminate H|intros (_ & H & _); discriminate H].
Qed.

Lemma seeded_keeps decl self name entry :
  _vars self !! name = Some entry ->
  _vars (seeded decl self) !! name = Some entry.
Proof.
  intros H. unfold seeded.
  destruct (_vars self !! decl_name decl) eqn:Hlook; [exact H|].
  cbn [_vars]. rewrite lookup_insert_ne; [exact H|]. intros <-. congruence.
Qed.

Lemma seeded_other decl self name :
  name <> decl_name decl ->
  _vars (seeded decl self) !! name = _vars self !! name.
Proof.
  intros Hne. unfold seeded.
  destruct (_vars self !! decl_name decl); [reflexivity|].
  cbn [_vars]. apply lookup_insert_ne. congruence.
Qed.

Lemma populate_cons decl rest self self' :
  populate_variable_defaults (decl :: rest) self = Ok (tt, self')
  <-> populate_variable decl self = Ok (tt, seeded decl self)
      /\ populate_variable_defaults rest (seeded decl self) = Ok (tt, self').
Proof.
  cbn [populate_variable_defaults]. split.
  - intros H. apply bind_inv in H as ([] & s1 & H1 & H2).
    pose proof H1 as H1'. apply populate_variable_ok_iff in H1' as (_ & _ & ->).
    auto.
  - intros [H1 H2]. rewrite (bind_ok _ _ _ _ _ H1). exact H2.
Qed.

(** X9. When the declarations of an operation validate, every declared
    variable is bound, to [None] only if its type is nullable and otherwise
    to a value (for a list type, a list of values) that the coercion table
    accepts for its declared scalar type; no non-nullable declaration
    carries a default; a binding supplied by the caller is left as it was,
    so a supplied value always wins over the default; a name that was
    neither supplied nor declared stays unbound; and a variable that was not
    supplied is bound to the decoded default of its first declaration, or
    to [None] when that has none, with its critical flag down. *)
Theorem declarations_postcondition (declarations : list variable_definition)
        (self self' : translator) :
  populate_variable_defaults declarations self = Ok (tt, self') ->
  Forall (fun decl =>
            (decl_value decl = None
             \/ type_nullable (decl_type decl) = true)
            /\ exists val crit,
                 _vars self' !! decl_name decl = Some (val, crit)
                 /\ conforms (decl_type decl) val = true)
         declarations
  /\ (forall name entry,
        _vars self !! name = Some entry -> _vars self' !! name = Some entry)
  /\ (forall name,
        _vars self !! name = None ->
        ~ In name (List.map decl_name declarations) ->
        _vars self' !! name = None)
  /\ (forall pre decl post,
        declarations = pre ++ decl :: post ->
        ~ In (decl_name decl) (List.map decl_name pre) ->
        _vars self !! decl_name decl = None ->
        _vars self' !! decl_name decl = Some (default_value decl, false)).
Proof.
  revert self. induction declarations as [|d rest IH]; intros self H.
  - apply ret_inv in H as [_ ->]. split; [constructor|].
    split; [auto|]. split; [auto|].
    intros [|? ?] decl post Heq; discriminate Heq.
  - apply populate_cons in H as [Hd Hrest].
    apply populate_variable_ok_iff in Hd as (Hbad & Hconf & _).
    destruct (IH _ Hrest) as (Hall & Hkeep & Hfresh & Hfirst).
    split; [|split; [|split]].
    + constructor; [|exact Hall]. split.
      * destruct (decl_value d); [|auto].
        destruct (type_nullable (decl_type d)); [auto|discriminate Hbad].
      * destruct (seeded_lookup d self) as (crit & Hlook).
        exists (value_after_seeding d self), crit.
        split; [apply Hkeep, Hlook|exact Hconf].
    + intros name entry Hn. apply Hkeep, seeded_keeps, Hn.
    + intros name Hn Hnot. cbn [List.map In] in Hnot.
      apply Hfresh; [|tauto].
      rewrite seeded_other; [exact Hn|]. intros ->. tauto.
    + intros pre decl post Heq Hnot Hn.
      destruct pre as [|d' pre].
      * injection Heq as <- <-. apply Hkeep.
        unfold seeded. rewrite Hn. cbn [_vars]. apply lookup_insert_eq.
      * injection Heq as <- ->. cbn [List.map In] in Hnot.
        apply (Hfirst pre decl post eq_refl); [tauto|].
        rewrite seeded_other; [exact Hn|]. intros Heq. symmetry in Heq. tauto.
Qed.

Lemma declarations_postcondition_witness :
  exists self',
    populate_variable_defaults
      [VariableDefinition "$n" (NamedType "Int" true)
         (Some (ScalarLiteral (PyInt 7)));
       VariableDefinition "$ids" (ListType (NamedType "ID" true) false) None]
      {| _fragments := ∅;
         _vars := {[ "$ids" := (PyList [PyStr "a"; PyInt 2], false) ]};
         reads := [] |}
    = Ok (tt, self')
    /\ _vars self' !! "$n" = Some (PyInt 7, false)
    /\ _vars self' !! "$ids" = Some (PyList [PyStr "a"; PyInt 2], false).
Proof.
  destruct (populate_variable_defaults
              [VariableDefinition "$n" (NamedType "Int" true)
                 (Some (ScalarLiteral (PyInt 7)));
               VariableDefinition "$ids"
                 (ListType (NamedType "ID" true) false) None]
              {| _fragments := ∅;
                 _vars := {[ "$ids" := (PyList [PyStr "a"; PyInt 2], false) ]};
                 reads := [] |}) as [[[] self']|err] eqn:Hrun;
    [|vm_compute in Hrun; discriminate Hrun].
  exists self'. split; [reflexivity|].
  destruct (declarations_postcondition _ _ _ Hrun)
    as (_ & Hkeep & _ & Hfirst).
  split.
  - apply (Hfirst [] (VariableDefinition "$n" (NamedType "Int" true)
                        (Some (ScalarLiteral (PyInt 7)))) _ eq_refl).
    + intros [].
    + reflexivity.
  - apply Hkeep. reflexivity.
Defined.


(** ** Plain selection sets *)

Lemma plain_field sel :
  plain sel = true ->
  exists name selection_set,
    sel = Field name [] [] selection_set
    /\ match selection_set with
       | Some selections => forallb plain selections = true
       | None => True
       end.
Proof.
  destruct sel as [name [|? ?] [|? ?] [selections|]| |]; try discriminate;
    intros H; eexists _, _; (split; [reflexivity|]); [exact H|exact I].
Qed.

Lemma list_max_cons x l : list_max (x :: l) = Nat.max x (list_max l).
Proof. reflexivity. Qed.

(** X10. A selection set made of fields only, without arguments or
    directives at any level, is translated without consulting the schema
    or the environment and cannot fail once the recursion bound exceeds its
    nesting: the shape has one entry per field, in order, each the link of
    the field's name with no filter and the entries of its own selections.
    In particular the names of nested fields are not checked against the
    schema. *)
Theorem plain_selections_translate {T} (schema : Schema T) (depth : nat) :
  forall (base : list string) (selections : list selection)
         (self : translator),
    forallb plain selections = true ->
    (list_max (List.map height selections) < depth)%nat ->
    process_pathspec schema depth base selections self
    = Ok (List.map shape_of selections, self).
Proof.
  induction depth as [|depth IH]; intros base selections self Hplain Hdepth;
    [lia|].
  cbn [process_pathspec].
  induction selections as [|sel rest IHrest]; [reflexivity|].
  cbn [forallb] in Hplain. apply andb_prop in Hplain as [Hsel Hrest].
  cbn [List.map] in Hdepth. rewrite list_max_cons in Hdepth.
  destruct (plain_field sel Hsel) as (name & selection_set & -> & Hsub).
  cbn [pathspec_loop sel_directives should_include].
  unfold bind at 1. cbn [ret negb].
  assert (process_field schema (process_pathspec schema depth) base name []
            selection_set self
          = Ok (shape_of (Field name [] [] selection_set), self)) as Hfield.
  { unfold process_field, process_path_where, where_of.
    unfold bind at 1. cbn [ret].
    destruct selection_set as [selections|]; [|reflexivity].
    assert (list_max (List.map height selections) < depth)%nat as Hsmall.
    { cbn [height] in Hdepth. lia. }
    rewrite (bind_ok _ _ _ _ _
               (IH (base ++ [name]) selections self Hsub Hsmall)).
    reflexivity. }
  rewrite (bind_ok _ _ _ _ _ (bind_ok _ _ _ _ _ Hfield)).
  unfold ret at 1.
  rewrite (bind_ok _ _ _ _ _ (IHrest Hrest ltac:(lia))).
  reflexivity.
Qed.

Lemma plain_selections_translate_witness :
  process_pathspec Sample.schema 2 ["User"]
    [Field "nosuchlink" [] [] (Some [Sample.field "deeper"]);
     Sample.field "name"] Sample.new
  = Ok ([SelectPathSpecNode (link_step "nosuchlink") None
           [SelectPathSpecNode (link_step "deeper") None []];
         SelectPathSpecNode (link_step "name") None []], Sample.new).
Proof.
  apply (plain_selections_translate Sample.schema 2 ["User"]
           [Field "nosuchlink" [] [] (Some [Sample.field "deeper"]);
            Sample.field "name"] Sample.new).
  - reflexivity.
  - cbn. lia.
Defined.


(** ** Fragment spreads *)

Lemma well_conditioned_same_values vars vars' directives :
  same_values vars vars' ->
  well_conditioned vars directives -> well_conditioned vars' directives.
Proof.
  intros Hsame Hwell d Hin Hc.
  rewrite <- (cond_value_same_values vars vars' d Hsame). auto.
Qed.

Lemma rules_out_none_same_values vars vars' directives :
  same_values vars vars' ->
  existsb (rules_out vars) directives = false ->
  existsb (rules_out vars') directives = false.
Proof.
  intros Hsame <-. apply existsb_pointwise. intros d. symmetry.
  apply rules_out_same_values, Hsame.
Qed.

Lemma should_include_true directives :
  forall self,
    well_conditioned (_vars self) directives ->
    existsb (rules_out (_vars self)) directives = false ->
    exists self',
      should_include directives self = Ok (true, self')
      /\ same_values (_vars self) (_vars self')
      /\ _fragments self' = _fragments self.
Proof.
  induction directives as [|d rest IH]; intros self Hwell Hnone.
  - exists self. split; [reflexivity|]. split; [intros n|]; reflexivity.
  - cbn [existsb] in Hnone. apply orb_false_elim in Hnone as [Hd Hrest].
    assert (well_conditioned (_vars self) rest) as Hwell'
      by (intros d' Hin; apply Hwell; right; exact Hin).
    cbn [should_include].
    destruct (is_conditional (directive_name d)) eqn:Hcond;
      [|apply IH; assumption].
    destruct (cond_value (_vars self) d) as [b|] eqn:Hval;
      [|exfalso; exact (Hwell d (or_introl eq_refl) Hcond Hval)].
    destruct (eval_cond_value d self b Hval)
      as (self1 & Heval & Hsame & Hfrag).
    rewrite (bind_ok _ _ _ _ _ Heval).
    unfold rules_out in Hd. rewrite Hval in Hd.
    apply orb_false_elim in Hd as [-> ->].
    destruct (IH self1) as (self' & Hrun & Hsame' & Hfrag').
    + eapply well_conditioned_same_values; eassumption.
    + eapply rules_out_none_same_values; eassumption.
    + exists self'. split; [exact Hrun|].
      split; [eapply same_values_trans; eassumption|congruence].
Qed.

(** X11. Take a fragment of the fragment table whose first selection is
    a spread of the fragment itself, and a base path at which the type
    check of the fragment passes.  A spread of that fragment which carries
    the same directives as the inner spread and is the first selection of
    the list being processed, its directives all testing Booleans and none
    of them ruling it out, can never be expanded: processing the list
    raises [RecursionError] whatever the recursion bound.  The cycle is not
    detected and not reported as a validation error. *)
Theorem self_spreading_fragment_overflows {T} (schema : Schema T)
        (base : list string) (name : string) (directives : list directive)
        (frag : fragment_definition) (rest : list selection)
        (self : translator) :
  _fragments self !! name = Some frag ->
  frag_selections frag = FragmentSpread name directives :: rest ->
  well_conditioned (_vars self) directives ->
  existsb (rules_out (_vars self)) directives = false ->
  validate_fragment_type schema base (Some (frag_name frag)) (frag_on frag)
    (frag_directives frag) = Ok tt ->
  forall depth more,
    process_pathspec schema depth base
      (FragmentSpread name directives :: more) self
    = Raise RecursionError.
Proof.
  intros Hfrag Hsel Hwell Hnone Hvalid depth.
  assert (forall s more,
            _fragments s = _fragments self ->
            same_values (_vars self) (_vars s) ->
            process_pathspec schema depth base
              (FragmentSpread name directives :: more) s
            = Raise RecursionError) as Hgen.
  { induction depth as [|depth IH]; intros s more Hf Hsame; [reflexivity|].
    cbn [process_pathspec pathspec_loop sel_directives].
    destruct (should_include_true directives s
                (well_conditioned_same_values _ _ _ Hsame Hwell)
                (rules_out_none_same_values _ _ _ Hsame Hnone))
      as (s1 & Hrun & Hsame1 & Hf1).
    rewrite (bind_ok _ _ _ _ _ Hrun). cbn [negb].
    apply bind_raise. unfold process_spread.
    rewrite Hf1, Hf, Hfrag.
    unfold bind, lift. rewrite Hvalid, Hsel.
    apply IH; [congruence|].
    eapply same_values_trans; eassumption. }
  intros more. apply Hgen; [reflexivity|intros n; reflexivity].
Qed.

Lemma self_spreading_fragment_overflows_witness :
  process_pathspec Sample.schema 50 ["User"] [FragmentSpread "Loop" []]
    {| _fragments :=
         {[ "Loop" := FragmentDefinition "Loop" (Some "User") []
                        [FragmentSpread "Loop" []; Sample.field "name"] ]};
       _vars := ∅; reads := [] |}
  = Raise RecursionError.
Proof.
  apply (self_spreading_fragment_overflows Sample.schema ["User"] "Loop" []
           (FragmentDefinition "Loop" (Some "User") []
              [FragmentSpread "Loop" []; Sample.field "name"])
           [Sample.field "name"]).
  - reflexivity.
  - reflexivity.
  - intros d [].
  - reflexivity.
  - reflexivity.
Defined.

(** X12. A spread of a fragment that the document does not define is
    noticed only if the spread is included: its directives are evaluated
    first, and when they rule it out the loop passes over it, and otherwise
    the lookup in the fragment table raises [KeyError], not a validation
    error. *)
Theorem undefined_fragment_spread {T} (schema : Schema T) (depth : nat)
        (base : list string) (name : string) (directives : list directive)
        (rest : list selection) (self : translator) :
  _fragments self !! name = None ->
  process_pathspec schema (S depth) base
    (FragmentSpread name directives :: rest) self
  = (included <- should_include directives ;;
     if negb included
     then process_pathspec schema (S depth) base rest
     else raise KeyError) self.
Proof.
  intros Hnone.
  cbn [process_pathspec pathspec_loop sel_directives].
  destruct (should_include directives self) as [[included s1]|e] eqn:Hrun;
    [|rewrite !(bind_raise _ _ _ _ Hrun); reflexivity].
  rewrite !(bind_ok _ _ _ _ _ Hrun).
  destruct included; cbn [negb]; [|reflexivity].
  apply bind_raise. unfold process_spread.
  destruct (should_include_env_grows directives _ _ _ Hrun) as [-> _].
  rewrite Hnone. reflexivity.
Qed.

Lemma undefined_fragment_spread_witness :
  outcome (process_pathspec Sample.schema 1 ["User"]
             [FragmentSpread "Missing" []; Sample.field "name"] Sample.new)
  = Raise KeyError
  /\ outcome (process_pathspec Sample.schema 1 ["User"]
                [FragmentSpread "Missing"
                   [Sample.skip_if (ScalarLiteral (PyBool true))];
                 Sample.field "name"] Sample.new)
     = Ok [SelectPathSpecNode (link_step "name") None []].
Proof.
  split.
  - rewrite (undefined_fragment_spread Sample.schema 0 ["User"] "Missing" []
               [Sample.field "name"] Sample.new eq_refl).
    reflexivity.
  - rewrite (undefined_fragment_spread Sample.schema 0 ["User"] "Missing"
               [Sample.skip_if (ScalarLiteral (PyBool true))]
               [Sample.field "name"] Sample.new eq_refl).
    reflexivity.
Defined.


(** ** [translate]: the operations of a document *)

Lemma translate_operation_keeps_fragments {T} (schema : Schema T) depth
      variables o self r self' :
  translate_operation schema depth variables o self = Ok (r, self') ->
  _fragments self' = _fragments self.
Proof.
  unfold translate_operation. intros H.
  apply bind_inv in H as ([] & s0 & Hset & H). injection Hset as <-.
  apply bind_inv in H as (q & s1 & Hdef & H).
  apply bind_inv in H as (vars & s2 & Hget & H). injection Hget as <- <-.
  apply ret_inv in H as [_ ->].
  apply process_definition_env_grows in Hdef as [Hf _]. exact Hf.
Qed.

Lemma translate_operation_supplied {T} (schema : Schema T) depth variables o
      self r self' :
  translate_operation schema depth variables o self = Ok (r, self') ->
  forall name val,
    variables !! name = Some val ->
    exists crit, _vars self' !! name = Some (val, crit).
Proof.
  unfold translate_operation. intros H.
  apply bind_inv in H as ([] & s0 & Hset & H). injection Hset as <-.
  apply bind_inv in H as (q & s1 & Hdef & H).
  apply bind_inv in H as (vars & s2 & Hget & H). injection Hget as <- <-.
  apply ret_inv in H as [_ ->].
  apply process_definition_env_grows in Hdef as [_ Hkeep].
  intros name val Hval.
  destruct (Hkeep name val false) as (crit & Hlook & _).
  - cbn [_vars]. unfold fresh_vars. rewrite lookup_fmap, Hval. reflexivity.
  - exists crit. exact Hlook.
Qed.

(** What the loop over the definitions leaves in the translator object. *)
Lemma translate_loop_state {T} (schema : Schema T) depth variables
      definitions :
  forall acc self result self',
    translate_loop schema depth variables definitions acc self
    = Ok (result, self') ->
    _fragments self' = _fragments self
    /\ (operations definitions = [] -> _vars self' = _vars self)
    /\ (operations definitions <> [] ->
        forall name val,
          variables !! name = Some val ->
          exists crit, _vars self' !! name = Some (val, crit)).
Proof.
  induction definitions as [|[f|o] rest IH]; intros acc self result self' H.
  - apply ret_inv in H as [_ ->]. cbn [operations].
    split; [reflexivity|]. split; [reflexivity|]. intros Hne. congruence.
  - cbn [translate_loop operations] in *. eapply IH, H.
  - cbn [translate_loop operations] in *.
    apply bind_inv in H as (r & s1 & Hop & H).
    apply IH in H as (Hf & Hnone & Hsome).
    split.
    { rewrite Hf. eapply translate_operation_keeps_fragments, Hop. }
    split; [intros Hnil; discriminate Hnil|].
    intros _ name val Hval.
    destruct (operations rest) as [|o' ops] eqn:Hops.
    + rewrite (Hnone eq_refl).
      eapply translate_operation_supplied; eassumption.
    + apply (Hsome ltac:(discriminate) name val Hval).
Qed.

(** C9 (amended). What [translate] returns, the forest of trees with
    their lists of critical variables or the exception raised, is a
    function of the document, the variable values and the schema alone: it
    is the same whatever the fields [_fragments] and [_vars] of the
    translator object held before the call, and so a second call on the
    object the first call left behind returns what the first one returned.
    The call is not free of effects on the translator object: when it
    returns, [_fragments] holds the fragment table of the document and,
    if the document has an operation, [_vars] binds every variable the
    caller supplied to the value supplied. *)
Theorem translate_deterministic {T} (schema : Schema T) (depth : nat)
        (gqltree : document) (variables : gmap string pyval) :
  (forall self1 self2,
     outcome (translate schema depth gqltree variables self1)
     = outcome (translate schema depth gqltree variables self2))
  /\
  (forall self forest self',
     translate schema depth gqltree variables self = Ok (forest, self') ->
     outcome (translate schema depth gqltree variables self') = Ok forest)
  /\
  (forall self forest self',
     translate schema depth gqltree variables self = Ok (forest, self') ->
     _fragments self' = fragments_of gqltree
     /\ (operations gqltree <> [] ->
         forall name val,
           variables !! name = Some val ->
           exists crit, _vars self' !! name = Some (val, crit))).
Proof.
  assert (forall self1 self2,
            outcome (translate schema depth gqltree variables self1)
            = outcome (translate schema depth gqltree variables self2))
    as Hsame.
  { intros self1 self2. unfold translate, bind, set_fragments.
    apply translate_loop_fragments. reflexivity. }
  split; [exact Hsame|]. split.
  - intros self forest self' Hrun.
    rewrite (Hsame self' self), Hrun. reflexivity.
  - intros self forest self' Hrun. unfold translate in Hrun.
    apply bind_inv in Hrun as ([] & s0 & Hset & Hrun).
    injection Hset as <-.
    apply translate_loop_state in Hrun as (Hf & _ & Hsome).
    split; [exact Hf|exact Hsome].
Qed.

Lemma translate_deterministic_witness :
  exists forest self',
    translate Sample.schema 3 flag_document flag_variables Sample.new
    = Ok (forest, self')
    /\ outcome (translate Sample.schema 3 flag_document flag_variables self')
       = Ok forest
    /\ _fragments self' = fragments_of flag_document.
Proof.
  destruct (translate Sample.schema 3 flag_document flag_variables Sample.new)
    as [[forest self']|e] eqn:Hrun; [|vm_compute in Hrun; discriminate Hrun].
  exists forest, self'. split; [reflexivity|]. split.
  - exact (proj1 (proj2 (translate_deterministic Sample.schema 3
                           flag_document flag_variables))
             Sample.new forest self' Hrun).
  - exact (proj1 (proj2 (proj2 (translate_deterministic Sample.schema 3
                                  flag_document flag_variables))
                    Sample.new forest self' Hrun)).
Defined.

(** C9, as stated, fails: a call has an effect beyond allocation.  The
    translator object [__init__] left without variables holds, after one
    call, the variable [$flag] with its critical flag raised. *)
Lemma translate_deterministic_counterexample :
  exists result self',
    translate Sample.schema 3 flag_document flag_variables Sample.new
    = Ok (result, self')
    /\ _vars Sample.new !! "$flag" = None
    /\ _vars self' !! "$flag" = Some (PyBool true, true).
Proof.
  assert (match translate Sample.schema 3 flag_document flag_variables
                  Sample.new with
          | Ok (_, s) => _vars s !! "$flag"
          | Raise _ => None
          end = Some (PyBool true, true)) as Hflag.
  { vm_compute. reflexivity. }
  destruct (translate Sample.schema 3 flag_document flag_variables Sample.new)
    as [[result self']|e]; [|discriminate Hflag].
  exists result, self'. split; [reflexivity|]. split; [reflexivity|].
  exact Hflag.
Qed.

Lemma translate_loop_collect {T} (schema : Schema T) depth variables
      (fragments : gmap string fragment_definition) definitions :
  forall acc self,
    _fragments self = fragments ->
    outcome (translate_loop schema depth variables definitions acc self)
    = collect
        (List.map
           (fun o =>
              (op_name o,
               outcome (translate_operation schema depth variables o
                          {| _fragments := fragments; _vars := ∅;
                             reads := [] |})))
           (operations definitions))
        acc.
Proof.
  induction definitions as [|[f|o] rest IH]; intros acc self Hf.
  - reflexivity.
  - cbn [translate_loop operations]. apply IH, Hf.
  - cbn [translate_loop operations List.map collect].
    rewrite <- (translate_operation_fragments schema depth variables o self
                  {| _fragments := fragments; _vars := ∅; reads := [] |})
      by exact Hf.
    destruct (translate_operation schema depth variables o self)
      as [[r s1]|e] eqn:Hop.
    + rewrite (bind_ok _ _ _ _ _ Hop). cbn [outcome]. apply IH.
      rewrite <- Hf. eapply translate_operation_keeps_fragments, Hop.
    + rewrite (bind_raise _ _ _ _ Hop). reflexivity.
Qed.

Lemma translate_collect {T} (schema : Schema T) depth gqltree variables self :
  outcome (translate schema depth gqltree variables self)
  = collect (results_alone schema depth gqltree variables) ∅.
Proof.
  unfold translate, bind, set_fragments, results_alone, alone.
  apply translate_loop_collect. reflexivity.
Qed.

Lemma collect_app pre post acc :
  collect (pre ++ post) acc
  = match collect pre acc with
    | Ok acc' => collect post acc'
    | Raise e => Raise e
    end.
Proof.
  revert acc. induction pre as [|[name [r|e]] pre IH]; intros acc;
    cbn [app collect]; [reflexivity|apply IH|reflexivity].
Qed.

Lemma collect_all_ok results :
  Forall (fun x => exists r, x.2 = Ok r) results ->
  forall acc, exists forest, collect results acc = Ok forest.
Proof.
  induction 1 as [|[name res] rest [r Hr] _ IH]; intros acc.
  - exists acc. reflexivity.
  - cbn in Hr. subst res. cbn [collect]. apply IH.
Qed.

Lemma collect_other results name :
  forall acc forest,
    collect results acc = Ok forest ->
    (forall x, In x results -> x.1 <> name) ->
    forest !! name = acc !! name.
Proof.
  induction results as [|[n [r|e]] rest IH]; intros acc forest H Hne.
  - injection H as <-. reflexivity.
  - cbn [collect] in H. rewrite (IH _ _ H).
    + apply lookup_insert_ne. apply (Hne (n, Ok r)). left. reflexivity.
    + intros x Hx. apply Hne. right. exact Hx.
  - discriminate H.
Qed.

(** X13. The first operation of a document that fails on its own makes
    the whole call fail with its exception: no forest is returned, not even
    for the operations before it that translated. *)
Theorem first_failure_aborts {T} (schema : Schema T) (depth : nat)
        (gqltree : document) (variables : gmap string pyval)
        (self : translator) (pre post : list operation_definition)
        (o : operation_definition) (e : exn) :
  operations gqltree = pre ++ o :: post ->
  Forall (fun o' => exists r,
            alone schema depth gqltree variables o' = Ok r) pre ->
  alone schema depth gqltree variables o = Raise e ->
  outcome (translate schema depth gqltree variables self) = Raise e.
Proof.
  intros Hops Hpre Hfail. rewrite translate_collect.
  unfold results_alone. rewrite Hops, List.map_app, collect_app.
  destruct (collect_all_ok
              (List.map (fun o0 => (op_name o0,
                                  alone schema depth gqltree variables o0))
                        pre)) with (acc := (∅ : forest)) as [acc ->].
  - apply List.Forall_forall. intros x Hx.
    apply in_map_iff in Hx as (o' & <- & Hin).
    rewrite List.Forall_forall in Hpre. exact (Hpre o' Hin).
  - cbn [List.map collect]. rewrite Hfail. reflexivity.
Qed.

Lemma first_failure_aborts_witness :
  outcome (translate Sample.schema 3
             [DOperation
                (OperationDefinition (Some "a") None [] []
                   [Field "User" [] [] (Some [Sample.field "name"])]);
              DOperation
                (OperationDefinition (Some "b") None [] []
                   [Field "Nobody" [] [] (Some [Sample.field "name"])]);
              DOperation
                (OperationDefinition (Some "c") None [] []
                   [Field "Group" [] [] (Some [Sample.field "name"])])]
             ∅ Sample.new)
  = Raise (does_not_exist "Nobody").
Proof.
  apply (first_failure_aborts Sample.schema 3 _ ∅ Sample.new
           [OperationDefinition (Some "a") None [] []
              [Field "User" [] [] (Some [Sample.field "name"])]]
           [OperationDefinition (Some "c") None [] []
              [Field "Group" [] [] (Some [Sample.field "name"])]]
           (OperationDefinition (Some "b") None [] []
              [Field "Nobody" [] [] (Some [Sample.field "name"])])).
  - reflexivity.
  - constructor; [|constructor]. eexists. vm_compute. reflexivity.
  - vm_compute. reflexivity.
Defined.

(** X14. Operations do not affect one another.  When every operation of
    a document translates on its own, by a translator that starts from the
    caller's variables with all flags down and knows the fragments of the
    whole document, the call returns a forest in which each operation name
    is mapped to what the last operation of that name gives on its own, and
    a name that no operation bears is not mapped. *)
Theorem forest_of_operations {T} (schema : Schema T) (depth : nat)
        (gqltree : document) (variables : gmap string pyval)
        (self : translator) :
  Forall (fun o => exists r,
            alone schema depth gqltree variables o = Ok r)
         (operations gqltree) ->
  exists forest,
    outcome (translate schema depth gqltree variables self) = Ok forest
    /\ (forall pre o post r,
          operations gqltree = pre ++ o :: post ->
          (forall o', In o' post -> op_name o' <> op_name o) ->
          alone schema depth gqltree variables o = Ok r ->
          forest !! op_name o = Some r)
    /\ (forall name,
          (forall o, In o (operations gqltree) -> op_name o <> name) ->
          forest !! name = None).
Proof.
  intros Hall. rewrite translate_collect. unfold results_alone.
  destruct (collect_all_ok
              (List.map (fun o => (op_name o,
                                 alone schema depth gqltree variables o))
                        (operations gqltree))) with (acc := (∅ : forest))
    as [forest Hforest].
  { apply List.Forall_forall. intros x Hx.
    apply in_map_iff in Hx as (o' & <- & Hin).
    rewrite List.Forall_forall in Hall. exact (Hall o' Hin). }
  exists forest. split; [exact Hforest|]. split.
  - intros pre o post r Hops Hlast Hr.
    rewrite Hops, List.map_app, collect_app in Hforest.
    destruct (collect (List.map _ pre) ∅) as [acc|e]; [|discriminate Hforest].
    cbn [List.map collect] in Hforest. rewrite Hr in Hforest.
    rewrite (collect_other _ (op_name o) _ _ Hforest).
    + apply lookup_insert_eq.
    + intros x Hx. apply in_map_iff in Hx as (o' & <- & Hin).
      apply Hlast, Hin.
  - intros name Hname.
    rewrite (collect_other _ name _ _ Hforest); [apply lookup_empty|].
    intros x Hx. apply in_map_iff in Hx as (o' & <- & Hin).
    apply Hname, Hin.
Qed.

Lemma forest_of_operations_witness :
  exists forest,
    outcome (translate Sample.schema 3
               [DOperation
                  (OperationDefinition (Some "a") None [] []
                     [Field "User" [] [] (Some [Sample.field "name"])]);
                DOperation
                  (OperationDefinition (Some "a") None [] []
                     [Field "Group" [] [] (Some [Sample.field "name"])])]
               ∅ Sample.new)
    = Ok forest
    /\ forest !! Some "a"
       = Some (Some (select_of "Group"
                       [SelectPathSpecNode (link_step "name") None []]),
               [])
    /\ forest !! Some "b" = None.
Proof.
  destruct (forest_of_operations Sample.schema 3
              [DOperation
                 (OperationDefinition (Some "a") None [] []
                    [Field "User" [] [] (Some [Sample.field "name"])]);
               DOperation
                 (OperationDefinition (Some "a") None [] []
                    [Field "Group" [] [] (Some [Sample.field "name"])])]
              ∅ Sample.new) as (forest & Hrun & Hlast & Habsent).
  - constructor; [|constructor; [|constructor]];
      eexists; vm_compute; reflexivity.
  - exists forest. split; [exact Hrun|]. split.
    + apply (Hlast [OperationDefinition (Some "a") None [] []
                      [Field "User" [] [] (Some [Sample.field "name"])]]
                   (OperationDefinition (Some "a") None [] []
                      [Field "Group" [] [] (Some [Sample.field "name"])])
                   []).
      * reflexivity.
      * intros o' [].
      * vm_compute. reflexivity.
    + apply Habsent. intros o [<-|[<-|[]]]; discriminate.
Defined.


(** ** The recursion bound *)

Lemma below_refl {A} (m : M A) : below m m.
Proof. intros self r H _. exact H. Qed.

Lemma below_bind {A B} (m m' : M A) (k k' : A -> M B) :
  below m m' -> (forall a, below (k a) (k' a)) ->
  below (bind m k) (bind m' k').
Proof.
  intros Hm Hk self r Hrun Hr. unfold bind in *.
  destruct (m self) as [[a s1]|e] eqn:Hms.
  - rewrite (Hm self _ Hms) by discriminate. apply (Hk a); assumption.
  - subst r. rewrite (Hm self _ Hms); [reflexivity|].
    intros Heq. apply Hr. injection Heq as ->. reflexivity.
Qed.

Ltac below_step :=
  lazymatch goal with
  | |- below ?m ?m => apply below_refl
  | |- below (bind _ _) (bind _ _) => apply below_bind; [|intros ?]
  | |- below (match ?x with _ => _ end) (match ?x with _ => _ end) =>
      destruct x
  end.

Ltac below_auto := repeat first [assumption | below_step].

Section Below.

Context {T : Type} (schema : Schema T).

Lemma pathspec_loop_below rec rec' :
  (forall base selections,
     below (rec base selections) (rec' base selections)) ->
  forall base selections,
    below (pathspec_loop schema rec base selections)
          (pathspec_loop schema rec' base selections).
Proof.
  intros Hrec base selections.
  induction selections as [|sel rest IH]; cbn [pathspec_loop]; below_auto.
  - unfold process_field. below_auto. apply Hrec.
  - unfold process_inline_fragment. below_auto. apply Hrec.
  - intros s r Hrun Hr. unfold process_spread in *.
    destruct (_fragments s !! name) as [f|]; [|exact Hrun].
    revert s r Hrun Hr.
    change (below
              (lift (validate_fragment_type schema base
                       (Some (frag_name f)) (frag_on f) (frag_directives f))
               ;;; rec base (frag_selections f))
              (lift (validate_fragment_type schema base
                       (Some (frag_name f)) (frag_on f) (frag_directives f))
               ;;; rec' base (frag_selections f))).
    below_auto. apply Hrec.
Qed.

Lemma process_pathspec_below depth :
  forall depth',
    (depth <= depth')%nat ->
    forall base selections,
      below (process_pathspec schema depth base selections)
            (process_pathspec schema depth' base selections).
Proof.
  induction depth as [|depth IH]; intros depth' Hle base selections.
  - intros self r Hrun Hr. exfalso. apply Hr. rewrite <- Hrun. reflexivity.
  - destruct depth' as [|depth']; [lia|].
    cbn [process_pathspec]. apply pathspec_loop_below.
    intros base' selections'. apply IH. lia.
Qed.

Lemma selquery_of_below depth depth' module selset :
  (depth <= depth')%nat ->
  below (selquery_of schema depth module selset)
        (selquery_of schema depth' module selset).
Proof.
  intros Hle. unfold selquery_of. below_auto.
  unfold process_selset. below_auto.
  apply process_pathspec_below, Hle.
Qed.

Lemma definition_loop_below depth depth' module selections :
  (depth <= depth')%nat ->
  forall query,
    below (definition_loop schema depth module query selections)
          (definition_loop schema depth' module query selections).
Proof.
  intros Hle.
  induction selections as [|selset rest IH]; intros query;
    cbn [definition_loop]; below_auto.
  - apply selquery_of_below, Hle.
  - apply IH.
Qed.

Lemma translate_loop_below depth depth' variables definitions :
  (depth <= depth')%nat ->
  forall acc,
    below (translate_loop schema depth variables definitions acc)
          (translate_loop schema depth' variables definitions acc).
Proof.
  intros Hle.
  induction definitions as [|[f|o] rest IH]; intros acc;
    cbn [translate_loop]; below_auto.
  - apply IH.
  - unfold translate_operation. below_auto.
    unfold process_definition. below_auto.
    apply definition_loop_below, Hle.
  - apply IH.
Qed.

End Below.

(** X15. The recursion bound decides nothing but whether the translation
    runs into it: when [translate] yields a forest, or raises anything other
    than [RecursionError], under one bound, it yields the same forest,
    leaves the translator in the same state, or raises the same exception,
    under every larger bound. *)
Theorem translate_bound_irrelevant {T} (schema : Schema T)
        (depth depth' : nat) (gqltree : document)
        (variables : gmap string pyval) (self : translator)
        (r : result (forest * translator)) :
  (depth <= depth')%nat ->
  translate schema depth gqltree variables self = r ->
  r <> Raise RecursionError ->
  translate schema depth' gqltree variables self = r.
Proof.
  intros Hle. revert self r.
  change (below (translate schema depth gqltree variables)
                (translate schema depth' gqltree variables)).
  unfold translate. apply below_bind; [apply below_refl|].
  intros []. apply translate_loop_below, Hle.
Qed.

Lemma translate_bound_irrelevant_witness :
  translate Sample.schema 40 flag_document flag_variables Sample.new
  = translate Sample.schema 2 flag_document flag_variables Sample.new.
Proof.
  apply (translate_bound_irrelevant Sample.schema 2 40 flag_document
           flag_variables Sample.new).
  - lia.
  - reflexivity.
  - vm_compute. discriminate.
Defined.


(** ** The parts of an argument name *)

(** X16. Splitting the remaining portion of an argument name at the
    double underscores loses nothing and leaves no double underscore
    behind: joining the parts with [__] gives the portion back, no part
    contains two underscores in a row, there is always at least one part,
    and a portion without a double underscore is its own single part. *)
Theorem split_dunder_parts (s : string) :
  String.concat "__" (split_dunder s) = s
  /\ Forall (fun part => has_dunder part = false) (split_dunder s)
  /\ split_dunder s <> []
  /\ (has_dunder s = false -> split_dunder s = [s]).
Proof.
  split; [apply concat_split_dunder|].
  split; [|split].
  - apply (split_go_parts (String.length s)); [lia|].
    destruct s; reflexivity.
  - apply split_go_nonempty.
  - intros H. apply (split_go_whole s ""), H.
Qed.

Lemma split_dunder_parts_witness :
  split_dunder "first_name" = ["first_name"]
  /\ split_dunder "owner__first_name" = ["owner"; "first_name"]
  /\ split_dunder "a___b" = ["a"; "_b"].
Proof.
  split; [|split; reflexivity].
  apply (proj2 (proj2 (proj2 (split_dunder_parts "first_name")))).
  reflexivity.
Defined.


(** ** [_validate_arg] *)

(** X17. How an argument value that is not [None] is checked: the root
    concept is looked up and the links of the path are followed one by one
    (the same walk that types a fragment's base path); then the value is
    validated against the implementation type of what the last link points
    at, under the name of that last link, not the name of the argument.  An
    unknown root concept surfaces as the schema's own [SchemaError], a link
    that does not resolve or a target without an implementation type as
    [AttributeError]: none of them is turned into a validation error. *)
Theorem validate_arg_walks_path {T} (schema : Schema T) (root : string)
        (links : list string) (last : string) (value : pyval)
        (as_sequence : bool) :
  value <> PyNone ->
  validate_arg schema
    (PathNode (PathStepNode root :: List.map link_step (links ++ [last])) [])
    value as_sequence
  = match base_type schema (root :: links ++ [last]) with
    | Ok target =>
        match get_implementation_type schema target with
        | Some base_t => validate_value last value base_t as_sequence
        | None => Raise AttributeError
        end
    | Raise e => Raise e
    end.
Proof.
  intros Hvalue. unfold validate_arg, base_type.
  destruct value; try contradiction;
    (destruct (get schema (KName root)) as [target|]; [|reflexivity];
     rewrite resolve_steps_base; cbn [rbind];
     destruct (resolve_base schema target (links ++ [last])) as [target'|e];
     [|reflexivity]; cbn [rbind];
     rewrite List.map_app; cbn [List.map]; rewrite last_snoc;
     destruct (get_implementation_type schema target'); reflexivity).
Qed.

Lemma validate_arg_walks_path_witness :
  validate_arg Sample.schema
    (PathNode [PathStepNode "User"; link_step "profile"; link_step "value"] [])
    (PyInt 3) false
  = Raise (not_of_type (PyInt 3) s_types.Str "value")
  /\ validate_arg Sample.schema
       (PathNode [PathStepNode "User"; link_step "nosuchlink"] [])
       (PyInt 3) false
     = Raise AttributeError
  /\ validate_arg Sample.schema
       (PathNode [PathStepNode "User"; link_step "profile"] [])
       (PyInt 3) false
     = Raise AttributeError.
Proof.
  split; [|split].
  - refine (eq_trans (validate_arg_walks_path Sample.schema "User"
                        ["profile"] "value" (PyInt 3) false _) _);
      [discriminate|reflexivity].
  - refine (eq_trans (validate_arg_walks_path Sample.schema "User"
                        [] "nosuchlink" (PyInt 3) false _) _);
      [discriminate|reflexivity].
  - refine (eq_trans (validate_arg_walks_path Sample.schema "User"
                        [] "profile" (PyInt 3) false _) _);
      [discriminate|reflexivity].
Defined.


(** ** Conditions that are not Booleans *)

Lemma condition_error_same_values vars vars' d :
  same_values vars vars' ->
  condition_error vars d = condition_error vars' d.
Proof.
  intros Hsame. unfold condition_error.
  destruct (directive_if d) as [[name| | |]|]; try reflexivity.
  specialize (Hsame name).
  destruct (vars !! name), (vars' !! name); cbn in Hsame;
    try discriminate Hsame; reflexivity.
Qed.

Lemma conditional_not_boolean d rest self :
  is_conditional (directive_name d) = true ->
  cond_value (_vars self) d = None ->
  should_include (d :: rest) self = Raise (condition_error (_vars self) d).
Proof.
  intros Hcond. cbn [should_include]. rewrite Hcond.
  unfold eval_cond, cond_value, condition_error.
  unfold bind, lift, read_cond_var, ret, raise.
  destruct (directive_if d) as [[name| | |v]|e]; cbv beta iota;
    try reflexivity.
  - destruct (_vars self !! name) as [[v crit]|]; [|reflexivity].
    destruct v; cbv beta iota; intros H; try reflexivity; discriminate H.
  - destruct v; cbv beta iota; intros H; try reflexivity; discriminate H.
Qed.

(** X18. A conditional directive whose condition is not a Boolean never
    defaults to including or skipping: when the directives before it do not
    rule the selection out, evaluating it raises, [IndexError] if it has no
    [if] argument, [KeyError] if it names a variable that is not bound, and
    otherwise (a variable bound to [None], a number, a string, or a literal
    that is not a Boolean) the validation error naming the directive. *)
Theorem non_boolean_condition_fails (pre : list directive) (d : directive)
        (rest : list directive) (self : translator) :
  well_conditioned (_vars self) pre ->
  existsb (rules_out (_vars self)) pre = false ->
  is_conditional (directive_name d) = true ->
  cond_value (_vars self) d = None ->
  should_include (pre ++ d :: rest) self
  = Raise (condition_error (_vars self) d).
Proof.
  revert self. induction pre as [|p pre IH]; intros self Hwell Hnone Hcond Hval.
  - apply conditional_not_boolean; assumption.
  - cbn [existsb] in Hnone. apply orb_false_elim in Hnone as [Hp Hpre].
    assert (well_conditioned (_vars self) pre) as Hwell'
      by (intros d' Hin; apply Hwell; right; exact Hin).
    cbn [app should_include].
    destruct (is_conditional (directive_name p)) eqn:Hpc;
      [|apply IH; assumption].
    destruct (cond_value (_vars self) p) as [b|] eqn:Hpv;
      [|exfalso; exact (Hwell p (or_introl eq_refl) Hpc Hpv)].
    destruct (eval_cond_value p self b Hpv)
      as (self1 & Heval & Hsame & Hfrag).
    rewrite (bind_ok _ _ _ _ _ Heval).
    unfold rules_out in Hp. rewrite Hpv in Hp.
    apply orb_false_elim in Hp as [-> ->].
    rewrite (condition_error_same_values _ _ d Hsame).
    apply IH.
    + eapply well_conditioned_same_values; eassumption.
    + eapply rules_out_none_same_values; eassumption.
    + exact Hcond.
    + rewrite <- (cond_value_same_values _ _ d Hsame). exact Hval.
Qed.

Lemma non_boolean_condition_fails_witness :
  should_include
    ([Directive "edgedb" []; Sample.skip_if (ScalarLiteral (PyBool false))]
     ++ Sample.include_if (Var "$flag") :: [])
    {| _fragments := ∅; _vars := {[ "$flag" := (PyNone, false) ]};
       reads := [] |}
  = Raise (not_boolean "include").
Proof.
  refine (eq_trans
            (non_boolean_condition_fails
               [Directive "edgedb" [];
                Sample.skip_if (ScalarLiteral (PyBool false))]
               (Sample.include_if (Var "$flag")) []
               {| _fragments := ∅;
                  _vars := {[ "$flag" := (PyNone, false) ]};
                  reads := [] |} _ _ _ _) _).
  - intros d [<-|[<-|[]]] Hc; vm_compute; discriminate.
  - reflexivity.
  - reflexivity.
  - reflexivity.
  - vm_compute. reflexivity.
Defined.

(** ** Filters of nested fields *)

Lemma argument_rule_anchored {T} (schema : Schema T) root links self arg x :
  argument_rule schema (PathStepNode root :: List.map link_step links) self
    arg x ->
  anchored root links (binop x).
Proof.
  destruct x as [[path op] value].
  intros (stem & parts & decoded & _ & _ & -> & _).
  exists parts, op, value. cbn [binop].
  rewrite List.map_app. reflexivity.
Qed.

(** X19. The filter of a nested field is anchored at the root concept:
    every comparison in it is made at a path that starts with the root
    concept, goes through every enclosing field and the field itself, and
    then follows the parts of the argument name; there are as many
    comparisons as arguments, and a field without arguments carries no
    filter. *)
Theorem nested_filter_anchored {T} (schema : Schema T)
        (rec : list string -> list selection -> M (list ql))
        (root : string) (links : list string) (name : string)
        (arguments : list argument)
        (selection_set : option (list selection))
        (self self' : translator) (spec : ql) :
  process_field schema rec (root :: links) name arguments selection_set self
  = Ok (spec, self') ->
  exists filter pathspec,
    spec = SelectPathSpecNode (link_step name) filter pathspec
    /\ match filter with
       | None => arguments = []
       | Some e =>
           Forall (anchored root (links ++ [name])) (conjuncts e)
           /\ length (conjuncts e) = length arguments
       end.
Proof.
  unfold process_field. intros H.
  apply bind_inv in H as (filter & s1 & Hwhere & H).
  assert (exists pathspec,
            spec = SelectPathSpecNode (link_step name) filter pathspec)
    as [pathspec ->].
  { destruct selection_set as [selections|].
    - apply bind_inv in H as (pathspec & s2 & _ & H).
      apply ret_inv in H as [-> _]. eauto.
    - apply ret_inv in H as [-> _]. eauto. }
  exists filter, pathspec. split; [reflexivity|].
  change ((root :: links) ++ [name]) with (root :: (links ++ [name]))
    in Hwhere.
  rewrite process_path_where_prefix in Hwhere. unfold where_of in Hwhere.
  destruct arguments as [|arg rest].
  - apply ret_inv in Hwhere as [-> _]. reflexivity.
  - apply bind_inv in Hwhere as (triples & s2 & Hargs & Hwhere).
    apply bind_inv in Hwhere as (e & s3 & Hjoin & Hwhere).
    apply lift_inv in Hjoin as [Hjoin ->].
    apply ret_inv in Hwhere as [-> _].
    apply process_arguments_rule in Hargs as [Hall _].
    apply join_expressions_conjunction in Hjoin
      as (first & others & Hmap & ->).
    assert (Forall is_comparison (List.map binop triples)) as Hcmp.
    { clear Hmap. induction Hall as [|a x args xs Hrule _ IH]; cbn.
      - constructor.
      - constructor; [eapply argument_rule_comparison, Hrule|exact IH]. }
    assert (Forall (anchored root (links ++ [name]))
                   (List.map binop triples)) as Hanch.
    { clear Hmap Hcmp. induction Hall as [|a x args xs Hrule _ IH]; cbn.
      - constructor.
      - constructor; [eapply argument_rule_anchored, Hrule|exact IH]. }
    assert (conjuncts (conjunction first others) = List.map binop triples)
      as Hback.
    { rewrite conjuncts_conjunction, Hmap. rewrite Hmap in Hcmp.
      inversion Hcmp as [|? ? Hfirst _]; subst.
      rewrite (comparison_conjuncts first Hfirst). reflexivity. }
    rewrite Hback. split; [exact Hanch|].
    rewrite length_map. symmetry. eapply Forall2_length, Hall.
Qed.

Lemma nested_filter_anchored_witness :
  exists e self',
    process_field Sample.schema (process_pathspec Sample.schema 1)
      ["User"; "groups"] "settings"
      [Argument "name__in" (ListLiteral [ScalarLiteral (PyStr "a")])]
      None Sample.new
    = Ok (SelectPathSpecNode (link_step "settings") (Some e) [], self')
    /\ Forall (anchored "User" ["groups"; "settings"]) (conjuncts e).
Proof.
  destruct (process_field Sample.schema (process_pathspec Sample.schema 1)
              ["User"; "groups"] "settings"
              [Argument "name__in" (ListLiteral [ScalarLiteral (PyStr "a")])]
              None Sample.new) as [[spec self']|err] eqn:Hrun;
    [|vm_compute in Hrun; discriminate Hrun].
  destruct (nested_filter_anchored Sample.schema _ "User" ["groups"]
              "settings" _ None Sample.new self' spec Hrun)
    as (filter & pathspec & Hspec & Hfilter).
  destruct filter as [e|]; [|discriminate Hfilter].
  destruct Hfilter as [Hanch _].
  vm_compute in Hrun. injection Hrun as <- <-.
  injection Hspec as <- <-.
  eexists _, _. split; [reflexivity|exact Hanch].
Defined.
